(** * Incremental per-line tokenization and virtualized rendering (editor.js)

    A shallow embedding of the editing core of [src/editor.js]: the
    regex-driven line tokenizer, the HTML token cache, the prefix/suffix
    line differ, the cache update run on every input event, and the
    visible-range calculator.

    JavaScript strings are sequences of UTF-16 code units and are modelled
    as [list N]; arrays are lists; [undefined] reads are [None]; pixel
    quantities are exact rationals and line indices integers. *)

From Stdlib Require Import ZArith NArith QArith Qround Lia.
From Stdlib Require Import Strings.String Strings.Ascii.
From stdpp Require Import base tactics option numbers list.

Set Default Proof Using "Type".
Local Open Scope nat_scope.

(** ** JavaScript strings *)

Abbreviation jsstring := (list N) (only parsing).

(** The code units of an ASCII literal. *)
Definition str (s : string) : jsstring :=
  map N_of_ascii (list_ascii_of_string s).

Definition QUOTE : N := 34.      (* the double quote character *)
Definition BACKSLASH : N := 92.
Definition NEWLINE : N := 10.

(** [String.prototype.slice(a, b)] and [slice(a)] for non-negative indices. *)
Definition sliceStr (s : jsstring) (a b : nat) : jsstring :=
  take (b - a) (drop a s).

Definition sliceFrom (s : jsstring) (a : nat) : jsstring := drop a s.

(** [s.split] on the newline: always at least one piece, trailing empties kept. *)
Fixpoint split (sep : N) (s : jsstring) : list jsstring :=
  match s with
  | [] => [[]]
  | c :: s' =>
      if N.eqb c sep then [] :: split sep s'
      else match split sep s' with
           | l :: ls => (c :: l) :: ls
           | [] => [[c]]
           end
  end.

(** [s.replace(/c/g, rep)] for a one-character pattern. *)
Fixpoint replaceAll (c : N) (rep : jsstring) (s : jsstring) : jsstring :=
  match s with
  | [] => []
  | x :: s' => (if N.eqb x c then rep else [x]) ++ replaceAll c rep s'
  end.

(** ** Regular expressions

    The fragment of ECMAScript patterns used by the editor, with the
    backtracking semantics of the language definition: a matcher takes a
    position, the captures so far and a continuation; alternatives are
    tried left to right and a greedy star tries one more iteration before
    it tries to stop. *)

Inductive regex : Type :=
| Empty
| Class (p : N -> bool)                       (* one code unit in a class *)
| Seq (r1 r2 : regex)
| Alt (r1 r2 : regex)                         (* r1|r2 *)
| Star (r : regex)                            (* r*, greedy *)
| Assert (a : list N -> nat -> bool)          (* \b, ^, $ *)
| Group (n : nat) (r : regex).                (* n-th capturing group *)

(** [r?] and [r+], greedy.  The patterns put under [?] below never match
    the empty string, so trying [r] and then nothing is all that [?] does. *)
Definition Opt (r : regex) : regex := Alt r Empty.
Definition Plus (r : regex) : regex := Seq r (Star r).
Definition Chr (c : N) : regex := Class (N.eqb c).

Fixpoint Lit (s : jsstring) : regex :=
  match s with
  | [] => Empty
  | c :: s' => Seq (Chr c) (Lit s')
  end.

(** Captures: entry [n] is the span of group [n], entry 0 the whole match. *)
Abbreviation captures := (list (option (nat * nat))) (only parsing).

Abbreviation result := (option (nat * list (option (nat * nat)))) (only parsing).

(** The greedy star: try one more iteration of [m], then the rest [k]; when
    that fails, stop here.  An iteration that consumes nothing is rejected,
    so from position [i] at most [length s - i] iterations can happen, which
    is the [fuel] that [matchRe] passes. *)
Fixpoint starLoop
  (m : nat -> captures -> (nat -> captures -> result) -> result)
  (k : nat -> captures -> result)
  (fuel : nat) (i : nat) (c : captures) : result :=
  match fuel with
  | O => k i c
  | S fuel' =>
      match m i c (fun j c' => if i <? j then starLoop m k fuel' j c' else None) with
      | Some res => Some res
      | None => k i c
      end
  end.

Fixpoint matchRe (r : regex) (s : jsstring) (i : nat) (c : captures)
  (k : nat -> captures -> result) : result :=
  match r with
  | Empty => k i c
  | Class p =>
      match s !! i with
      | Some ch => if p ch then k (S i) c else None
      | None => None
      end
  | Seq r1 r2 => matchRe r1 s i c (fun j c' => matchRe r2 s j c' k)
  | Alt r1 r2 =>
      match matchRe r1 s i c k with
      | Some res => Some res
      | None => matchRe r2 s i c k
      end
  | Star r1 => starLoop (matchRe r1 s) k (length s - i) i c
  | Assert a => if a s i then k i c else None
  | Group n r1 => matchRe r1 s i c (fun j c' => k j (<[n := Some (i, j)]> c'))
  end.

(** Character classes. *)
Definition inRange (lo hi c : N) : bool := N.leb lo c && N.leb c hi.

Definition isDigit (c : N) : bool := inRange 48 57 c.               (* \d *)

Definition isWordChar (c : N) : bool :=                            (* \w *)
  inRange 97 122 c || inRange 65 90 c || isDigit c || N.eqb c 95.

Definition isLineTerminator (c : N) : bool :=
  N.eqb c 10 || N.eqb c 13 || N.eqb c 8232 || N.eqb c 8233.

Definition isDot (c : N) : bool := negb (isLineTerminator c).      (* . *)

Definition isSpace (c : N) : bool :=                               (* \s *)
  N.eqb c 9 || N.eqb c 11 || N.eqb c 12 || N.eqb c 32 || N.eqb c 160
  || N.eqb c 5760 || inRange 8192 8202 c || N.eqb c 8239 || N.eqb c 8287
  || N.eqb c 12288 || N.eqb c 65279 || isLineTerminator c.

Definition isWordAt (s : jsstring) (i : nat) : bool :=
  match s !! i with
  | Some ch => isWordChar ch
  | None => false
  end.

Definition wordBoundary (s : jsstring) (i : nat) : bool :=         (* \b *)
  xorb (match i with O => false | S i' => isWordAt s i' end) (isWordAt s i).

Definition atStart (s : jsstring) (i : nat) : bool := i =? 0.       (* ^ *)
Definition atEnd (s : jsstring) (i : nat) : bool := i =? length s.  (* $ *)

(** The result of [RegExp.prototype.exec]. *)
Record MatchResult : Type := mkMatch {
  index : nat;
  endIndex : nat;
  groups : list (option (nat * nat))
}.

Definition noCaptures (ngroups : nat) : captures := replicate (S ngroups) None.

Definition matchAt (r : regex) (ngroups : nat) (s : jsstring) (i : nat) : result :=
  matchRe r s i (noCaptures ngroups) (fun j c => Some (j, c)).

(** Try the positions [i], [i+1], ... ([n] of them) and keep the first match. *)
Fixpoint execFrom (r : regex) (ngroups : nat) (s : jsstring) (n : nat) (i : nat)
  : option MatchResult :=
  match n with
  | O => None
  | S n' =>
      match matchAt r ngroups s i with
      | Some (j, c) => Some (mkMatch i j (<[0 := Some (i, j)]> c))
      | None => execFrom r ngroups s n' (S i)
      end
  end.

(** [re.exec(s)] for a global regex whose [lastIndex] is [lastIndex]: the
    candidate positions are [lastIndex .. s.length]; after a match the new
    [lastIndex] is [endIndex]. *)
Definition exec (r : regex) (ngroups : nat) (s : jsstring) (lastIndex : nat)
  : option MatchResult :=
  execFrom r ngroups s (S (length s) - lastIndex) lastIndex.

(** [re.test(s)] for a regex without the global flag. *)
Definition test (r : regex) (s : jsstring) : bool :=
  match exec r 0 s 0 with
  | Some _ => true
  | None => false
  end.

(** [m[n]]: the text of group [n], [None] when the group did not take part. *)
Definition group (m : MatchResult) (s : jsstring) (n : nat) : option jsstring :=
  match groups m !! n with
  | Some (Some (a, b)) => Some (sliceStr s a b)
  | _ => None
  end.

(** JavaScript truthiness of [m[n]]: defined and not the empty string. *)
Definition truthy (o : option jsstring) : bool :=
  match o with
  | Some (_ :: _) => true
  | _ => false
  end.

(** ** The tokenizer *)

(** The string alternative: a quote, then escaped characters or characters
    other than quote and backslash, then a quote. *)
Definition stringRe : regex :=
  Seq (Chr QUOTE)
    (Seq (Star (Alt (Seq (Chr BACKSLASH) (Class isDot))
                    (Class (fun c => negb (N.eqb c QUOTE || N.eqb c BACKSLASH)))))
         (Chr QUOTE)).

(** [-?\d+(?:\.\d+)?(?:[eE][+-]?\d+)?] *)
Definition numberRe : regex :=
  Seq (Opt (Chr 45))
    (Seq (Plus (Class isDigit))
      (Seq (Opt (Seq (Chr 46) (Plus (Class isDigit))))
           (Opt (Seq (Class (fun c => N.eqb c 101 || N.eqb c 69))
                  (Seq (Opt (Class (fun c => N.eqb c 43 || N.eqb c 45)))
                       (Plus (Class isDigit))))))).

(** [true|false|null] *)
Definition wordRe : regex :=
  Alt (Lit (str "true")) (Alt (Lit (str "false")) (Lit (str "null"))).

(** [[{}\[\]:,]] *)
Definition punctRe : regex :=
  Class (fun c => N.eqb c 123 || N.eqb c 125 || N.eqb c 91 || N.eqb c 93
                  || N.eqb c 58 || N.eqb c 44).

(** [tokenRegex]; groups: 1=string, 2=number, 3=true|false|null, 4=punctuation. *)
Definition tokenRegex : regex :=
  Alt (Group 1 stringRe)
    (Alt (Group 2 numberRe)
      (Alt (Seq (Assert wordBoundary) (Seq (Group 3 wordRe) (Assert wordBoundary)))
           (Group 4 punctRe))).

(** [/^\s*$/] *)
Definition blankRegex : regex :=
  Seq (Assert atStart) (Seq (Star (Class isSpace)) (Assert atEnd)).

Inductive TokenType : Type :=
| TPlain | TString | TNumber | TNull | TBoolean | TPunctuation | TKey.

Lemma TokenType_eq_dec (a b : TokenType) : {a = b} + {a <> b}.
Proof. decide equality. Defined.

Definition typeEqb (a b : TokenType) : bool :=
  if TokenType_eq_dec a b then true else false.

(** The class name stored in [t.type]. *)
Definition typeName (t : TokenType) : jsstring :=
  match t with
  | TPlain => str "plain"
  | TString => str "string"
  | TNumber => str "number"
  | TNull => str "null"
  | TBoolean => str "boolean"
  | TPunctuation => str "punctuation"
  | TKey => str "key"
  end.

Record Token : Type := mkToken { type : TokenType; text : jsstring }.

Definition jsEqb (a b : jsstring) : bool := bool_decide (a = b).

Definition orEmpty (o : option jsstring) : jsstring :=
  match o with
  | Some t => t
  | None => []
  end.

(** The body of the [while ((m = tokenRegex.exec(line)) !== null)] loop:
    the tokens pushed for one match. *)
Definition pushMatch (line : jsstring) (last : nat) (m : MatchResult)
  (tokens : list Token) : list Token :=
  let tokens1 :=
    if last <? index m
    then tokens ++ [mkToken TPlain (sliceStr line last (index m))]
    else tokens in
  if truthy (group m line 1) then
    tokens1 ++ [mkToken TString (orEmpty (group m line 1))]
  else if truthy (group m line 2) then
    tokens1 ++ [mkToken TNumber (orEmpty (group m line 2))]
  else if truthy (group m line 3) then
    let cls := if jsEqb (orEmpty (group m line 3)) (str "null")
               then TNull else TBoolean in
    tokens1 ++ [mkToken cls (orEmpty (group m line 3))]
  else if truthy (group m line 4) then
    tokens1 ++ [mkToken TPunctuation (orEmpty (group m line 4))]
  else tokens1.

(** The scanning loop; [lastIndex] is [tokenRegex.lastIndex].  [None] means
    that [fuel] iterations did not reach the end of the loop. *)
Fixpoint scanLoop (fuel : nat) (line : jsstring) (lastIndex last : nat)
  (tokens : list Token) : option (list Token * nat) :=
  match fuel with
  | O => None
  | S fuel' =>
      match exec tokenRegex 4 line lastIndex with
      | None => Some (tokens, last)
      | Some m =>
          scanLoop fuel' line (endIndex m) (endIndex m)
            (pushMatch line last m tokens)
      end
  end.

(** The flat token sequence, before keys are marked. *)
Definition scanLine (fuel : nat) (line : jsstring) : option (list Token) :=
  match scanLoop fuel line 0 0 [] with
  | Some (tokens, last) =>
      Some (if last <? length line
            then tokens ++ [mkToken TPlain (sliceFrom line last)]
            else tokens)
  | None => None
  end.

(** The test of the inner [while]: a plain token matching [/^\s*$/]. *)
Definition isBlankPlain (t : Token) : bool :=
  typeEqb (type t) TPlain && test blankRegex (text t).

(** [while (j < tokens.length && ...) j++], at most [n] iterations. *)
Fixpoint skipBlank (n : nat) (tokens : list Token) (j : nat) : nat :=
  match n with
  | O => j
  | S n' =>
      match tokens !! j with
      | Some t => if isBlankPlain t then skipBlank n' tokens (S j) else j
      | None => j
      end
  end.

Definition isColon (t : Token) : bool :=
  typeEqb (type t) TPunctuation && jsEqb (text t) (str ":").

(** One iteration of the key-marking [for] loop at index [i]. *)
Definition markKeyAt (tokens : list Token) (i : nat) : list Token :=
  match tokens !! i with
  | Some t =>
      if typeEqb (type t) TString then
        let j := skipBlank (length tokens - S i) tokens (S i) in
        match tokens !! j with
        | Some tj =>
            if isColon tj then <[i := mkToken TKey (text t)]> tokens else tokens
        | None => tokens
        end
      else tokens
  | None => tokens
  end.

(** [for (let i = 0; i < tokens.length - 1; i++)], with [n] iterations left. *)
Fixpoint markKeysFrom (n : nat) (i : nat) (tokens : list Token) : list Token :=
  match n with
  | O => tokens
  | S n' => markKeysFrom n' (S i) (markKeyAt tokens i)
  end.

Definition markKeys (tokens : list Token) : list Token :=
  markKeysFrom (length tokens - 1) 0 tokens.

(** Every match consumes at least one code unit, so the scanning loop runs
    at most [length line] times before [exec] returns [null]. *)
Definition tokenizeLineFuel (fuel : nat) (line : jsstring) : option (list Token) :=
  match scanLine fuel line with
  | Some tokens => Some (markKeys tokens)
  | None => None
  end.

Definition tokenizeLine (line : jsstring) : list Token :=
  match tokenizeLineFuel (S (length line)) line with
  | Some tokens => tokens
  | None => []
  end.

(** [escapeHtml] *)
Definition escapeHtml (s : jsstring) : jsstring :=
  replaceAll 62 (str "&gt;")
    (replaceAll 60 (str "&lt;") (replaceAll 38 (str "&amp;") s)).

Definition tokenHtml (t : Token) : jsstring :=
  match type t with
  | TPlain => escapeHtml (text t)
  | _ =>
      str "<span class=" ++ [QUOTE] ++ str "token " ++ typeName (type t)
        ++ [QUOTE] ++ str ">" ++ escapeHtml (text t) ++ str "</span>"
  end.

(** [tokensToHtml]: the per-token HTML, joined without separator. *)
Definition tokensToHtml (tokens : list Token) : jsstring :=
  concat (map tokenHtml tokens).

Definition lineHtml (l : jsstring) : jsstring := tokensToHtml (tokenizeLine l).

(** ** Arrays *)

(** [a[i]] for an integer index: [None] is [undefined]. *)
Definition elem {A : Type} (a : list A) (i : Z) : option A :=
  if (i <? 0)%Z then None else a !! Z.to_nat i.

(** [x === y] on array reads (strings or [undefined]). *)
Definition strictEq (x y : option jsstring) : bool := bool_decide (x = y).

Definition len {A : Type} (a : list A) : Z := Z.of_nat (length a).

(** A relative index of [slice] and [splice]: negative counts from the end. *)
Definition relIndex (n i : Z) : Z :=
  if (i <? 0)%Z then Z.max (n + i) 0 else Z.min i n.

(** [a.slice(from, to)] *)
Definition sliceArr {A : Type} (a : list A) (from to : Z) : list A :=
  let k := relIndex (len a) from in
  let final := relIndex (len a) to in
  take (Z.to_nat (final - k)) (drop (Z.to_nat k) a).

(** [a.splice(from, deleteCount, ...items)]: the array afterwards. *)
Definition splice {A : Type} (a : list A) (from deleteCount : Z) (items : list A)
  : list A :=
  let actualStart := relIndex (len a) from in
  let actualDeleteCount := Z.min (Z.max deleteCount 0) (len a - actualStart) in
  take (Z.to_nat actualStart) a ++ items
    ++ drop (Z.to_nat (actualStart + actualDeleteCount)) a.

(** [a[i] = v] for [i <= a.length]; writing at [a.length] extends the array.
    A write further out would leave holes, which the only reader
    ([state.tokens[i] || empty]) shows as the empty string. *)
Definition arraySet (a : list jsstring) (i : nat) (v : jsstring) : list jsstring :=
  if i <? length a then <[i := v]> a
  else a ++ replicate (i - length a) [] ++ [v].

(** ** The line differ *)

Record ChangeRange : Type := mkRange { start : Z; endOld : Z; endNew : Z }.

(** [while (start < minLen && oldLines[start] === newLines[start]) start++],
    at most [n] iterations. *)
Fixpoint prefixLoop (n : nat) (oldLines newLines : list jsstring)
  (minLen start : Z) : Z :=
  match n with
  | O => start
  | S n' =>
      if (start <? minLen)%Z && strictEq (elem oldLines start) (elem newLines start)
      then prefixLoop n' oldLines newLines minLen (start + 1)%Z
      else start
  end.

(** The backward [while] loop, at most [n] iterations. *)
Fixpoint suffixLoop (n : nat) (oldLines newLines : list jsstring)
  (start endOld endNew : Z) : Z * Z :=
  match n with
  | O => (endOld, endNew)
  | S n' =>
      if (start <=? endOld)%Z && (start <=? endNew)%Z
         && strictEq (elem oldLines endOld) (elem newLines endNew)
      then suffixLoop n' oldLines newLines start (endOld - 1)%Z (endNew - 1)%Z
      else (endOld, endNew)
  end.

(** [findChangedRange]; [None] is the [null] returned for identical inputs.
    The first loop runs at most [minLen] times and the second at most
    [oldLines.length] times. *)
Definition findChangedRange (oldLines newLines : list jsstring)
  : option ChangeRange :=
  let minLen := Z.min (len oldLines) (len newLines) in
  let start := prefixLoop (Z.to_nat minLen) oldLines newLines minLen 0%Z in
  if (start =? len oldLines)%Z && (start =? len newLines)%Z then None
  else
    let '(endOld, endNew) :=
      suffixLoop (length oldLines) oldLines newLines start
        (len oldLines - 1)%Z (len newLines - 1)%Z in
    Some (mkRange start endOld endNew).

(** ** The editor state and the token cache *)

Record State : Type := mkState {
  state_text : jsstring;
  state_tokens : list jsstring;        (* per-line token HTML strings *)
  state_selectionStart : nat;
  state_selectionEnd : nat;
  state_scrollTop : Q;
  state_scrollLeft : Q;
  state_viewportHeight : Q;
  state_viewportWidth : Q
}.

(** The hidden textarea read by [syncFromInput]. *)
Record HiddenInput : Type := mkInput {
  value : jsstring;
  selectionStart : nat;
  selectionEnd : nat
}.

Definition lines (st : State) : list jsstring := split NEWLINE (state_text st).

Definition totalLines (st : State) : Z := len (lines st).

(** The state after the initialisation code has run on [initialText]. *)
Definition initState (initialText : jsstring) : State :=
  mkState initialText (map lineHtml (split NEWLINE initialText))
    (length initialText) (length initialText) 0 0 0 0.

(** [retokenizeRange], on the cache [tokens]. *)
Definition retokenizeRange (tokens : list jsstring) (newLines : list jsstring)
  (start endNew : Z) : list jsstring :=
  let newTokens := map lineHtml (sliceArr newLines start (endNew + 1)%Z) in
  splice tokens start (endNew - start + 1)%Z newTokens.

(** [for (let i = state.tokens.length; i < newLines.length; i++)
      state.tokens[i] = tokensToHtml(tokenizeLine(newLines[i]))],
    with [n] iterations left. *)
Fixpoint appendMissing (n : nat) (i : nat) (newLines : list jsstring)
  (tokens : list jsstring) : list jsstring :=
  match n with
  | O => tokens
  | S n' =>
      match newLines !! i with
      | Some l => appendMissing n' (S i) newLines (arraySet tokens i (lineHtml l))
      | None => tokens
      end
  end.

(** The length fix-up at the end of [syncFromInput]. *)
Definition fixLength (tokens : list jsstring) (newLines : list jsstring)
  : list jsstring :=
  if length newLines <? length tokens then take (length newLines) tokens
  else if length tokens <? length newLines then
    appendMissing (length newLines - length tokens) (length tokens) newLines tokens
  else tokens.

(** [syncFromInput]: the state after one input event ([renderAll] only
    writes to the page). *)
Definition syncFromInput (st : State) (input : HiddenInput) : State :=
  let oldLines := lines st in
  let newText := value input in
  let newLines := split NEWLINE newText in
  let changed := findChangedRange oldLines newLines in
  let tokens' :=
    match changed with
    | None => state_tokens st
    | Some r =>
        fixLength (retokenizeRange (state_tokens st) newLines (start r) (endNew r))
          newLines
    end in
  mkState newText tokens' (selectionStart input) (selectionEnd input)
    (state_scrollTop st) (state_scrollLeft st)
    (state_viewportHeight st) (state_viewportWidth st).

(** The state after a sequence of input events. *)
Definition run (st : State) (inputs : list HiddenInput) : State :=
  foldl syncFromInput st inputs.

(** ** The visible range *)

Record VisibleRange : Type := mkVisible { first : Z; last : Z }.

Definition RENDER_BUFFER : Z := 8.

Section Viewport.

(** [LINE_HEIGHT] is read from the style sheet when the script starts. *)
Variable LINE_HEIGHT : Z.

Definition computeVisibleRange (st : State) : VisibleRange :=
  let first :=
    Z.max 0 (Qfloor (state_scrollTop st / inject_Z LINE_HEIGHT) - RENDER_BUFFER) in
  let visibleCount :=
    (Qceiling (state_viewportHeight st / inject_Z LINE_HEIGHT)
     + 2 * RENDER_BUFFER)%Z in
  let last := Z.min (totalLines st - 1) (first + visibleCount - 1) in
  mkVisible first last.

Definition docHeightPx (st : State) : Z := (totalLines st * LINE_HEIGHT)%Z.

End Viewport.

(** The scroll listener and [measureViewport] store the host's metrics. *)
Definition onScroll (st : State) (scrollTop scrollLeft : Q) : State :=
  mkState (state_text st) (state_tokens st) (state_selectionStart st)
    (state_selectionEnd st) scrollTop scrollLeft
    (state_viewportHeight st) (state_viewportWidth st).

Definition measureViewport (st : State) (clientHeight clientWidth : Q) : State :=
  mkState (state_text st) (state_tokens st) (state_selectionStart st)
    (state_selectionEnd st) (state_scrollTop st) (state_scrollLeft st)
    clientHeight clientWidth.

(** Line [i] occupies the pixels [i * LINE_HEIGHT, (i + 1) * LINE_HEIGHT);
    it is visible when that span meets [scrollTop, scrollTop + viewportHeight). *)
Definition spanIntersects (LINE_HEIGHT i : Z) (scrollTop viewportHeight : Q) : Prop :=
  exists y : Q,
    (inject_Z (i * LINE_HEIGHT) <= y)%Q /\ (y < inject_Z ((i + 1) * LINE_HEIGHT))%Q
    /\ (scrollTop <= y)%Q /\ (y < scrollTop + viewportHeight)%Q.

(** ** Specification-level notions *)

(** The matches of a pattern, without the search order: [Matches s r i c j c']
    says that [r] can match [s] from position [i] to position [j], turning
    the captures [c] into [c']. *)
Inductive Matches (s : jsstring)
  : regex -> nat -> captures -> nat -> captures -> Prop :=
| M_Empty i c : Matches s Empty i c i c
| M_Class p i c ch :
    s !! i = Some ch -> p ch = true -> Matches s (Class p) i c (S i) c
| M_Seq r1 r2 i c j c' k c'' :
    Matches s r1 i c j c' -> Matches s r2 j c' k c'' ->
    Matches s (Seq r1 r2) i c k c''
| M_AltL r1 r2 i c j c' :
    Matches s r1 i c j c' -> Matches s (Alt r1 r2) i c j c'
| M_AltR r1 r2 i c j c' :
    Matches s r2 i c j c' -> Matches s (Alt r1 r2) i c j c'
| M_StarStop r i c : Matches s (Star r) i c i c
| M_StarStep r i c j c' k c'' :
    Matches s r i c j c' -> i < j -> Matches s (Star r) j c' k c'' ->
    Matches s (Star r) i c k c''
| M_Assert a i c : a s i = true -> Matches s (Assert a) i c i c
| M_Group n r i c j c' :
    Matches s r i c j c' ->
    Matches s (Group n r) i c j (<[n := Some (i, j)]> c').

(** Can the pattern match the empty string? (an over-approximation) *)
Fixpoint nullable (r : regex) : bool :=
  match r with
  | Empty => true
  | Class _ => false
  | Seq r1 r2 => nullable r1 && nullable r2
  | Alt r1 r2 => nullable r1 || nullable r2
  | Star _ => true
  | Assert _ => true
  | Group _ r1 => nullable r1
  end.

Fixpoint hasGroup (r : regex) : bool :=
  match r with
  | Empty | Class _ | Assert _ => false
  | Seq r1 r2 | Alt r1 r2 => hasGroup r1 || hasGroup r2
  | Star r1 => hasGroup r1
  | Group _ _ => true
  end.

(** The code units a match of the pattern may contain. *)
Fixpoint alphabet (r : regex) (ch : N) : bool :=
  match r with
  | Empty | Assert _ => false
  | Class p => p ch
  | Seq r1 r2 | Alt r1 r2 => alphabet r1 ch || alphabet r2 ch
  | Star r1 | Group _ r1 => alphabet r1 ch
  end.

(** The token that holds the code unit at position [p] of the line, with
    the offset of that code unit inside the token. *)
Fixpoint tokenAt (tokens : list Token) (p : nat) : option (nat * Token) :=
  match tokens with
  | [] => None
  | t :: ts =>
      if p <? length (text t) then Some (p, t)
      else tokenAt ts (p - length (text t))
  end.

(** What the scanner guarantees for the token that starts at offset [off]. *)
Definition tokenOK (line : jsstring) (off : nat) (t : Token) : Prop :=
  text t <> [] /\
  match type t with
  | TPlain => True
  | TString | TKey => is_Some (matchAt stringRe 0 line off)
  | _ => QUOTE ∉ text t
  end.

Fixpoint tokensOK (line : jsstring) (off : nat) (tokens : list Token) : Prop :=
  match tokens with
  | [] => True
  | t :: ts => tokenOK line off t /\ tokensOK line (off + length (text t)) ts
  end.

(** The spec's key rule: after token [i] come zero or more whitespace-only
    plain tokens and then the punctuation token [:]. *)
Definition blankPlain (t : Token) : Prop :=
  type t = TPlain /\ Forall (fun ch => isSpace ch = true) (text t).

Definition colonToken (t : Token) : Prop :=
  type t = TPunctuation /\ text t = str ":".

Definition followedByColon (tokens : list Token) (i : nat) : Prop :=
  exists j tj,
    i < j /\ tokens !! j = Some tj /\ colonToken tj
    /\ forall k, i < k < j -> exists tk, tokens !! k = Some tk /\ blankPlain tk.

(** Everything from position [p] of the line on is plain text. *)
Definition plainFrom (tokens : list Token) (p : nat) : Prop :=
  forall q o t, p <= q -> tokenAt tokens q = Some (o, t) -> type t = TPlain.

(** The decision taken for index [i] by the key-marking loop. *)
Definition keyCheck (tokens : list Token) (i : nat) : bool :=
  match tokens !! i with
  | Some t =>
      typeEqb (type t) TString
      && match tokens !! skipBlank (length tokens - S i) tokens (S i) with
         | Some tj => isColon tj
         | None => false
         end
  | None => false
  end.

Definition asKey (t : Token) : Token := mkToken TKey (text t).

(** How marking relates a scanned token to the final one. *)
Definition marked (t t' : Token) : Prop :=
  text t' = text t /\ (type t' = type t \/ (type t = TString /\ type t' = TKey)).

(** The invariant of the scanning loop: the tokens pushed so far spell the
    line up to [last]. *)
Definition scanInv (line : jsstring) (last : nat) (tokens : list Token) : Prop :=
  last <= length line
  /\ concat (map text tokens) = take last line
  /\ tokensOK line 0 tokens
  /\ Forall (fun t => type t <> TKey) tokens.

(** The equal-index reading of the guarantee: lines at the same index are
    equal outside [start .. max endOld endNew]. *)
Definition pairwiseOutside (oldLines newLines : list jsstring) (r : ChangeRange)
  : Prop :=
  forall i, (i < start r \/ Z.max (endOld r) (endNew r) < i)%Z ->
    (0 <= i < len oldLines)%Z -> (0 <= i < len newLines)%Z ->
    elem oldLines i = elem newLines i.

(** ** Sample inputs *)

Definition quoted (s : string) : jsstring := [QUOTE] ++ str s ++ [QUOTE].

Definition joinLines (ls : list jsstring) : jsstring :=
  concat (map (fun l => l ++ [NEWLINE]) ls).

(** [INITIAL_TEXT], the document the editor starts with (twelve lines, the
    last one empty). *)
Definition INITIAL_TEXT : jsstring :=
  joinLines
    [ str "{";
      str "  " ++ quoted "message" ++ str ": " ++ quoted "Welcome to Phase 2!" ++ str ",";
      str "  " ++ quoted "number" ++ str ": 42,";
      str "  " ++ quoted "flag" ++ str ": true,";
      str "  " ++ quoted "nil" ++ str ": null,";
      str "  " ++ quoted "arr" ++ str ": [";
      str "    " ++ quoted "one" ++ str ",";
      str "    " ++ quoted "two" ++ str ",";
      str "    " ++ quoted "three";
      str "  ]";
      str "}" ].

Definition abc : jsstring := str "a" ++ [NEWLINE] ++ str "b" ++ [NEWLINE] ++ str "c".
Definition axbc : jsstring :=
  str "a" ++ [NEWLINE] ++ str "x" ++ [NEWLINE] ++ str "b" ++ [NEWLINE] ++ str "c".

(** Twenty empty lines, a viewport of 200 pixels, scrolled down by 100. *)
Definition scrolled : State :=
  onScroll (measureViewport (initState (replicate 19 NEWLINE)) 200 800) 100 0.


(** ** Further notions *)

(** The punctuation class of [tokenRegex] and the code units a number may
    hold. *)
Definition isPunct (c : N) : bool :=
  N.eqb c 123 || N.eqb c 125 || N.eqb c 91 || N.eqb c 93 || N.eqb c 58
  || N.eqb c 44.

Definition isNumberChar (c : N) : bool :=
  isDigit c || N.eqb c 45 || N.eqb c 46 || N.eqb c 101 || N.eqb c 69
  || N.eqb c 43.

(** What a token of type [ty] spanning [i, j) of the line is: a plain token
    is a stretch in which [tokenRegex] matches nowhere, a typed token is a
    match of its alternative. *)
Definition shapeOK (line : jsstring) (i j : nat) (ty : TokenType) : Prop :=
  match ty with
  | TPlain => forall p, i <= p < j -> matchAt tokenRegex 4 line p = None
  | TString | TKey => Matches line stringRe i (noCaptures 4) j (noCaptures 4)
  | TNumber => Matches line numberRe i (noCaptures 4) j (noCaptures 4)
  | TNull =>
      Matches line wordRe i (noCaptures 4) j (noCaptures 4)
      /\ wordBoundary line i = true /\ wordBoundary line j = true
      /\ sliceStr line i j = str "null"
  | TBoolean =>
      Matches line wordRe i (noCaptures 4) j (noCaptures 4)
      /\ wordBoundary line i = true /\ wordBoundary line j = true
      /\ sliceStr line i j <> str "null"
  | TPunctuation => Matches line punctRe i (noCaptures 4) j (noCaptures 4)
  end.

Fixpoint shaped (line : jsstring) (off : nat) (tokens : list Token) : Prop :=
  match tokens with
  | [] => True
  | t :: ts =>
      text t = sliceStr line off (off + length (text t))
      /\ off + length (text t) <= length line
      /\ text t <> []
      /\ shapeOK line off (off + length (text t)) (type t)
      /\ shaped line (off + length (text t)) ts
  end.

Fixpoint noAdjacentPlain (tokens : list Token) : Prop :=
  match tokens with
  | t1 :: ts =>
      match ts with
      | t2 :: _ => ~ (type t1 = TPlain /\ type t2 = TPlain)
      | [] => True
      end /\ noAdjacentPlain ts
  | [] => True
  end.

Definition lastNotPlain (tokens : list Token) : Prop :=
  forall pre t, tokens = pre ++ [t] -> type t <> TPlain.

Definition scanInv2 (line : jsstring) (lastIndex : nat) (tokens : list Token)
  : Prop :=
  lastIndex <= length line
  /\ length (concat (map text tokens)) = lastIndex
  /\ shaped line 0 tokens
  /\ noAdjacentPlain tokens
  /\ lastNotPlain tokens.

(** The entity (or the character itself) that [escapeHtml] puts for one
    code unit. *)
Definition escChar (c : N) : jsstring :=
  if N.eqb c 38 then str "&amp;"
  else if N.eqb c 60 then str "&lt;"
  else if N.eqb c 62 then str "&gt;"
  else [c].

Definition isTyped (t : Token) : bool := negb (typeEqb (type t) TPlain).

(** [renderSlice]: what is put on the page.  A row is the gutter label
    (the number [i + 1]) and the content HTML, [state.tokens[i]] or the empty
    string when that is undefined. *)
Record Row : Type := mkRow { gutterLabel : Z; contentHtml : jsstring }.

(** [for (let i = first; i <= last; i++)], with [n] iterations left. *)
Fixpoint renderRows (n : nat) (i : Z) (tokens : list jsstring) : list Row :=
  match n with
  | O => []
  | S n' => mkRow (i + 1) (orEmpty (elem tokens i)) :: renderRows n' (i + 1)%Z tokens
  end.

Record Slice : Type := mkSlice { offsetY : Z; rows : list Row }.

Definition renderSlice (LINE_HEIGHT : Z) (st : State) : Slice :=
  let r := computeVisibleRange LINE_HEIGHT st in
  mkSlice (first r * LINE_HEIGHT)
    (renderRows (Z.to_nat (last r - first r + 1)) (first r) (state_tokens st)).

(** The text with [sep] between the pieces: the inverse of [split]. *)
Definition joinWith (sep : N) (ls : list jsstring) : jsstring :=
  match ls with
  | [] => []
  | l :: rest => l ++ concat (map (fun x => sep :: x) rest)
  end.

(** * Properties *)

(** ** The regular-expression matcher *)

Lemma Matches_bounds s r i c j c' :
  Matches s r i c j c' -> i <= j /\ (i < j -> j <= length s).
Proof.
  induction 1 as [| ? ? ? ? Hl | | | | | | |]; try lia.
  apply lookup_lt_Some in Hl. lia.
Qed.

Lemma Matches_nullable s r i c j c' :
  Matches s r i c j c' -> nullable r = false -> i < j.
Proof.
  induction 1 as [| | ? ? ? ? ? ? ? ? H1 IH1 H2 IH2 | | | | | |]; simpl; intros Hn;
    try done; try lia.
  - apply Matches_bounds in H1, H2.
    apply andb_false_iff in Hn as [Hn|Hn]; [specialize (IH1 Hn)|specialize (IH2 Hn)];
      lia.
  - apply orb_false_iff in Hn as [Hn _]. auto.
  - apply orb_false_iff in Hn as [_ Hn]. auto.
  - auto.
Qed.

Lemma Matches_hasGroup s r i c j c' :
  Matches s r i c j c' -> hasGroup r = false -> c' = c.
Proof.
  induction 1; simpl; intros Hn; try done.
  - apply orb_false_iff in Hn as [Hn1 Hn2].
    rewrite IHMatches2, IHMatches1; done.
  - apply orb_false_iff in Hn as [Hn _]. auto.
  - apply orb_false_iff in Hn as [_ Hn]. auto.
  - rewrite IHMatches2, IHMatches1; done.
Qed.

Lemma Matches_alphabet s r i c j c' :
  Matches s r i c j c' ->
  forall q, i <= q < j -> exists ch, s !! q = Some ch /\ alphabet r ch = true.
Proof.
  induction 1 as [| ? ? ? ch Hl Hp
                  | ? ? ? ? ? ? ? ? H1 IH1 H2 IH2 | | | | ? ? ? ? ? ? ? H1 IH1 Hlt H2 IH2 | |];
    simpl; intros q Hq; try lia.
  - assert (q = i) as -> by lia. eauto.
  - destruct (decide (q < j)) as [Hlt|Hge].
    + destruct (IH1 q) as (ch & ? & Ha); [lia|]. exists ch. rewrite Ha. done.
    + destruct (IH2 q) as (ch & ? & Ha); [lia|]. exists ch. rewrite Ha.
      by rewrite orb_true_r.
  - destruct (IHMatches q Hq) as (ch & ? & Ha). exists ch. by rewrite Ha.
  - destruct (IHMatches q Hq) as (ch & ? & Ha). exists ch.
    by rewrite Ha, orb_true_r.
  - destruct (decide (q < j)) as [Hlt'|Hge].
    + apply IH1. lia.
    + apply IH2. lia.
  - auto.
Qed.

(** The matcher only returns what the pattern matches ... *)
Lemma matchRe_sound r : forall s i c k res,
  matchRe r s i c k = Some res ->
  exists j c', Matches s r i c j c' /\ k j c' = Some res.
Proof.
  induction r as [| p | r1 IH1 r2 IH2 | r1 IH1 r2 IH2 | r1 IH1 | a | n r1 IH1];
    simpl; intros s i c k res H.
  - exists i, c. split; [constructor|done].
  - destruct (s !! i) as [ch|] eqn:El; [|done].
    destruct (p ch) eqn:Ep; [|done].
    exists (S i), c. split; [by econstructor|done].
  - apply IH1 in H as (j & c' & Hm1 & H).
    apply IH2 in H as (j2 & c2 & Hm2 & H).
    exists j2, c2. split; [by econstructor|done].
  - destruct (matchRe r1 s i c k) as [res'|] eqn:E.
    + injection H as ->. apply IH1 in E as (j & c' & Hm & Hk).
      exists j, c'. split; [by apply M_AltL|done].
    + apply IH2 in H as (j & c' & Hm & Hk).
      exists j, c'. split; [by apply M_AltR|done].
  - revert H. generalize (length s - i) as fuel. intros fuel. revert i c.
    induction fuel as [|fuel IHf]; simpl; intros i c H.
    { exists i, c. split; [constructor|done]. }
    destruct (matchRe r1 s i c _) as [res'|] eqn:E.
    + injection H as ->. apply IH1 in E as (j & c' & Hm & Hk).
      destruct (Nat.ltb_spec i j) as [Hlt|]; [|done].
      apply IHf in Hk as (j2 & c2 & Hm2 & Hk2).
      exists j2, c2. split; [by eapply M_StarStep|done].
    + exists i, c. split; [constructor|done].
  - destruct (a s i) eqn:Ea; [|done].
    exists i, c. split; [by constructor|done].
  - apply IH1 in H as (j & c' & Hm & Hk).
    exists j, (<[n := Some (i, j)]> c'). split; [by constructor|done].
Qed.

(** ... and it finds a match whenever the pattern has one that the
    continuation accepts. *)
Lemma matchRe_complete r : forall s i c k j c',
  Matches s r i c j c' -> is_Some (k j c') -> is_Some (matchRe r s i c k).
Proof.
  induction r as [| p | r1 IH1 r2 IH2 | r1 IH1 r2 IH2 | r1 IH1 | a | n r1 IH1];
    intros s i c k j c' Hm Hk.
  - inversion Hm; subst. done.
  - inversion Hm as [| ? ? ? ch Hl Hp | | | | | | |]; subst. simpl.
    by rewrite Hl, Hp.
  - inversion Hm; subst. simpl. eapply IH1; [eassumption|].
    eapply IH2; eassumption.
  - simpl. inversion Hm; subst.
    + destruct (IH1 s i c k j c') as [res Hres]; [done|done|].
      rewrite Hres. eauto.
    + destruct (matchRe r1 s i c k); [eauto|]. eapply IH2; eassumption.
  - simpl. assert (Hfuel : length s <= (length s - i) + i) by lia.
    revert Hfuel. generalize (length s - i) as fuel.
    remember (Star r1) as R eqn:ER. revert Hk.
    induction Hm as [| | | | | r i c | r i c j c' j2 c2 Hm1 _ Hlt Hm2 IHm2 | |];
      try discriminate; injection ER as ->; intros Hk fuel Hfuel.
    + destruct fuel as [|fuel]; simpl; [done|].
      destruct (matchRe r1 s i c _); [eauto|done].
    + pose proof (Matches_bounds _ _ _ _ _ _ Hm1) as [_ Hb].
      specialize (Hb Hlt).
      destruct fuel as [|fuel]; [lia|]. simpl.
      destruct (IH1 s i c
        (fun j c' => if i <? j then starLoop (matchRe r1 s) k fuel j c' else None)
        j c' Hm1) as [res Hres].
      { destruct (Nat.ltb_spec i j); [|lia]. apply IHm2; [done|done|lia]. }
      rewrite Hres. eauto.
  - inversion Hm; subst. simpl. by rewrite H0.
  - inversion Hm; subst. simpl. eapply IH1; [eassumption|done].
Qed.

Lemma matchAt_sound r g s i j c' :
  matchAt r g s i = Some (j, c') -> Matches s r i (noCaptures g) j c'.
Proof.
  unfold matchAt. intros H.
  apply matchRe_sound in H as (j' & c2 & Hm & [= -> ->]). done.
Qed.

Lemma matchAt_complete r g s i j c' :
  Matches s r i (noCaptures g) j c' -> is_Some (matchAt r g s i).
Proof. intros H. unfold matchAt. eapply matchRe_complete; [exact H|done]. Qed.

Lemma execFrom_sound r g s n i m :
  execFrom r g s n i = Some m ->
  i <= index m < i + n
  /\ exists c', Matches s r (index m) (noCaptures g) (endIndex m) c'
                /\ groups m = <[0 := Some (index m, endIndex m)]> c'.
Proof.
  revert i. induction n as [|n IH]; simpl; intros i H; [done|].
  destruct (matchAt r g s i) as [[j c']|] eqn:E.
  - injection H as <-. simpl. split; [lia|].
    exists c'. split; [by apply matchAt_sound in E|done].
  - apply IH in H as [Hi H]. split; [lia|done].
Qed.

Lemma execFrom_complete r g s n i p j c' :
  i <= p < i + n -> Matches s r p (noCaptures g) j c' ->
  is_Some (execFrom r g s n i).
Proof.
  revert i. induction n as [|n IH]; simpl; intros i Hp Hm; [lia|].
  destruct (matchAt r g s i) as [[j2 c2]|] eqn:E; [done|].
  destruct (decide (p = i)) as [->|Hne].
  - apply matchAt_complete in Hm. rewrite E in Hm. by destruct Hm.
  - apply IH; [lia|done].
Qed.

Lemma exec_sound r g s lastIndex m :
  exec r g s lastIndex = Some m ->
  lastIndex <= index m <= length s
  /\ exists c', Matches s r (index m) (noCaptures g) (endIndex m) c'
                /\ groups m = <[0 := Some (index m, endIndex m)]> c'.
Proof.
  unfold exec. intros H. apply execFrom_sound in H as [Hi H]. split; [lia|done].
Qed.

(** *** The blank test *)

Lemma Matches_star_class s p i j c :
  i <= j -> (forall q, i <= q < j -> exists ch, s !! q = Some ch /\ p ch = true) ->
  Matches s (Star (Class p)) i c j c.
Proof.
  intros Hle. remember (j - i) as d eqn:Hd. revert i Hle Hd.
  induction d as [|d IH]; intros i Hle Hd Hall.
  - assert (i = j) as -> by lia. constructor.
  - destruct (Hall i) as (ch & Hl & Hp); [lia|].
    eapply M_StarStep; [by econstructor|lia|].
    apply IH; [lia|lia|]. intros q Hq. apply Hall. lia.
Qed.

Lemma test_blank s : test blankRegex s = forallb isSpace s.
Proof.
  unfold test. destruct (exec blankRegex 0 s 0) as [m|] eqn:E.
  - symmetry. apply forallb_forall. intros ch Hin.
    apply exec_sound in E as [_ (c' & Hm & _)].
    unfold blankRegex in Hm.
    inversion Hm as [| | ? ? ? ? ? ? ? ? Ha Hrest | | | | | |]; subst.
    inversion Ha as [| | | | | | | ? ? ? Hstart |]; subst.
    inversion Hrest as [| | ? ? ? ? ? ? ? ? Hstar Hend | | | | | |]; subst.
    inversion Hend as [| | | | | | | ? ? ? Hfin |]; subst.
    unfold atStart in Hstart. unfold atEnd in Hfin.
    apply Nat.eqb_eq in Hstart, Hfin.
    apply list_elem_of_In, list_elem_of_lookup in Hin as [q Hq].
    pose proof (lookup_lt_Some _ _ _ Hq) as Hlt.
    destruct (Matches_alphabet _ _ _ _ _ _ Hstar q) as (ch' & Hq' & Hal); [lia|].
    simpl in Hal. congruence.
  - symmetry. apply not_true_is_false. intros Hall.
    rewrite forallb_forall in Hall.
    assert (Hm : Matches s blankRegex 0 (noCaptures 0) (length s) (noCaptures 0)).
    { unfold blankRegex. eapply M_Seq; [by constructor|].
      eapply M_Seq; [|constructor; unfold atEnd; apply Nat.eqb_refl].
      apply Matches_star_class; [lia|]. intros q Hq.
      destruct (lookup_lt_is_Some_2 s q) as [ch Hch]; [lia|].
      exists ch. split; [done|]. apply Hall, list_elem_of_In.
      apply list_elem_of_lookup. eauto. }
    unfold exec in E.
    destruct (execFrom_complete blankRegex 0 s (S (length s) - 0) 0 0 _ _
                ltac:(lia) Hm) as [m Hsome].
    congruence.
Qed.

(** *** The token pattern *)

Lemma not_quote_slice s i j :
  j <= length s -> (forall q, i <= q < j -> s !! q <> Some QUOTE) ->
  QUOTE ∉ sliceStr s i j.
Proof.
  intros Hj Hall Hin. unfold sliceStr in Hin.
  apply list_elem_of_lookup in Hin as [q Hq].
  apply lookup_take_Some in Hq as [Hq Hlt]. rewrite lookup_drop in Hq.
  apply (Hall (i + q)); [lia|done].
Qed.

Lemma alphabet_no_quote s r i c j c' :
  Matches s r i c j c' -> alphabet r QUOTE = false ->
  forall q, i <= q < j -> s !! q <> Some QUOTE.
Proof.
  intros Hm Ha q Hq Hl.
  destruct (Matches_alphabet _ _ _ _ _ _ Hm q Hq) as (ch & Hch & Hal).
  congruence.
Qed.

(** A match of [tokenRegex] is not empty, fills exactly one of the groups
    1 to 4 with the whole match, and contains a quote only if it is a match
    of the string alternative. *)
Lemma tokenRegex_Matches s i j c' :
  Matches s tokenRegex i (noCaptures 4) j c' ->
  i < j /\ j <= length s
  /\ ((c' = <[1 := Some (i, j)]> (noCaptures 4)
       /\ Matches s stringRe i (noCaptures 4) j (noCaptures 4))
      \/ ((c' = <[2 := Some (i, j)]> (noCaptures 4)
           \/ c' = <[3 := Some (i, j)]> (noCaptures 4)
           \/ c' = <[4 := Some (i, j)]> (noCaptures 4))
          /\ forall q, i <= q < j -> s !! q <> Some QUOTE)).
Proof.
  intros Hm.
  assert (Hlt : i < j) by (eapply Matches_nullable; [exact Hm|reflexivity]).
  split; [done|]. split; [by apply (Matches_bounds _ _ _ _ _ _ Hm)|].
  unfold tokenRegex in Hm.
  inversion Hm as [| | | ? ? ? ? ? ? H1 | ? ? ? ? ? ? H1 | | | |]; subst; clear Hm.
  { inversion H1 as [| | | | | | | | ? ? ? ? ? ? H2]; subst.
    pose proof (Matches_hasGroup _ _ _ _ _ _ H2 eq_refl) as ->. left. done. }
  right.
  inversion H1 as [| | | ? ? ? ? ? ? H2 | ? ? ? ? ? ? H2 | | | |]; subst; clear H1.
  { inversion H2 as [| | | | | | | | ? ? ? ? ? ? H3]; subst.
    pose proof (Matches_hasGroup _ _ _ _ _ _ H3 eq_refl) as ->.
    split; [auto|]. by eapply alphabet_no_quote. }
  inversion H2 as [| | | ? ? ? ? ? ? H3 | ? ? ? ? ? ? H3 | | | |]; subst; clear H2.
  { inversion H3 as [| | ? ? ? ? ? ? ? ? Ha Hb | | | | | |]; subst.
    inversion Ha; subst.
    inversion Hb as [| | ? ? ? ? ? ? ? ? Hg He | | | | | |]; subst.
    inversion He; subst.
    inversion Hg as [| | | | | | | | ? ? ? ? ? ? H4]; subst.
    pose proof (Matches_hasGroup _ _ _ _ _ _ H4 eq_refl) as ->.
    split; [auto|]. by eapply alphabet_no_quote. }
  inversion H3 as [| | | | | | | | ? ? ? ? ? ? H4]; subst.
  pose proof (Matches_hasGroup _ _ _ _ _ _ H4 eq_refl) as ->.
  split; [auto|]. by eapply alphabet_no_quote.
Qed.

Lemma Matches_captures_irrelevant s r i c j c' :
  Matches s r i c j c' -> hasGroup r = false -> forall d, Matches s r i d j d.
Proof.
  induction 1; simpl; intros Hn d; try done; try (by econstructor).
  - apply orb_false_iff in Hn as [Hn1 Hn2]. econstructor; eauto.
  - apply orb_false_iff in Hn as [Hn _]. apply M_AltL. auto.
  - apply orb_false_iff in Hn as [_ Hn]. apply M_AltR. auto.
  - eapply M_StarStep; eauto.
Qed.

(** ** The scanning loop *)

Lemma sliceStr_length s a b : b <= length s -> length (sliceStr s a b) = b - a.
Proof. intros H. unfold sliceStr. rewrite length_take, length_drop. lia. Qed.

Lemma sliceStr_cons s a b :
  a < b -> b <= length s -> exists x l, sliceStr s a b = x :: l.
Proof.
  intros H1 H2. pose proof (sliceStr_length s a b H2) as Hl.
  destruct (sliceStr s a b) as [|x l]; [simpl in Hl; lia|eauto].
Qed.

Lemma tokensOK_snoc line off tokens t :
  tokensOK line off tokens ->
  tokenOK line (off + length (concat (map text tokens))) t ->
  tokensOK line off (tokens ++ [t]).
Proof.
  revert off. induction tokens as [|t0 tokens IH]; simpl; intros off H Ht.
  - rewrite Nat.add_0_r in Ht. done.
  - destruct H as [H0 H]. split; [done|]. apply IH; [done|].
    rewrite length_app in Ht. by rewrite <- Nat.add_assoc.
Qed.

Lemma scanInv_push line last tokens t b :
  scanInv line last tokens -> last < b <= length line ->
  text t = sliceStr line last b -> type t <> TKey ->
  match type t with
  | TPlain => True
  | TString | TKey => is_Some (matchAt stringRe 0 line last)
  | _ => QUOTE ∉ text t
  end ->
  scanInv line b (tokens ++ [t]).
Proof.
  intros (H1 & H2 & H3 & H4) Hb Ht Hk Hty.
  split; [lia|]. split; [|split].
  - rewrite map_app, concat_app, H2; simpl. rewrite app_nil_r, Ht.
    unfold sliceStr. rewrite take_take_drop. f_equal. lia.
  - apply tokensOK_snoc; [done|].
    rewrite H2, length_take. replace (0 + last `min` length line) with last by lia.
    split; [|done].
    rewrite Ht. destruct (sliceStr_cons line last b) as (x & l & ->); [lia|lia|done].
  - apply Forall_app. split; [done|]. by constructor.
Qed.

(** One iteration keeps the invariant and moves [lastIndex] forward. *)
Lemma pushMatch_inv line last tokens m :
  scanInv line last tokens -> exec tokenRegex 4 line last = Some m ->
  scanInv line (endIndex m) (pushMatch line last m tokens) /\ last < endIndex m.
Proof.
  intros Hinv He.
  apply exec_sound in He as [Hidx (c' & Hm & Hg)].
  apply tokenRegex_Matches in Hm as (Hlt & Hj & Hcases).
  destruct m as [idx j gs]; simpl in *. subst gs.
  split; [|lia].
  set (tokens1 := if last <? idx
                  then tokens ++ [mkToken TPlain (sliceStr line last idx)]
                  else tokens).
  assert (Hinv1 : scanInv line idx tokens1).
  { unfold tokens1. destruct (Nat.ltb_spec last idx) as [Hl|Hl].
    - apply (scanInv_push line last); [done|lia|done|done|done].
    - by replace idx with last by lia. }
  destruct (sliceStr_cons line idx j Hlt Hj) as (x & l & Hs).
  assert (Hpush : forall ty,
    ty <> TKey ->
    match ty with
    | TPlain => True
    | TString | TKey => is_Some (matchAt stringRe 0 line idx)
    | _ => QUOTE ∉ sliceStr line idx j
    end ->
    scanInv line j (tokens1 ++ [mkToken ty (sliceStr line idx j)])).
  { intros ty Hty Hok. apply (scanInv_push line idx); [done|lia|done|done|done]. }
  destruct Hcases as [[ -> Hstr] | [[ -> | [ -> | -> ]] Hnq]];
    unfold pushMatch, group, noCaptures; simpl; fold tokens1; rewrite ?Hs; simpl;
    rewrite <- ?Hs.
  - apply Hpush; [done|].
    eapply matchAt_complete.
    eapply (Matches_captures_irrelevant _ _ _ _ _ _ Hstr eq_refl).
  - apply Hpush; [done|]. by apply not_quote_slice.
  - destruct (jsEqb _ _); (apply Hpush; [done|]; by apply not_quote_slice).
  - apply Hpush; [done|]. by apply not_quote_slice.
Qed.

(** The loop leaves through [exec] returning [null] before the fuel runs out. *)
Lemma scanLoop_total fuel line last tokens :
  scanInv line last tokens -> length line - last < fuel ->
  exists tokens' last',
    scanLoop fuel line last last tokens = Some (tokens', last')
    /\ scanInv line last' tokens'.
Proof.
  revert last tokens. induction fuel as [|fuel IH]; intros last tokens Hinv Hf;
    [lia|]. simpl.
  destruct (exec tokenRegex 4 line last) as [m|] eqn:E; [|eauto].
  destruct (pushMatch_inv line last tokens m Hinv E) as [Hinv' Hlt].
  apply IH; [done|]. destruct Hinv' as [Hle _]. lia.
Qed.

(** More fuel does not change the result. *)
Lemma scanLoop_fuel fuel line lastIndex last tokens r :
  scanLoop fuel line lastIndex last tokens = Some r ->
  scanLoop (S fuel) line lastIndex last tokens = Some r.
Proof.
  revert lastIndex last tokens. induction fuel as [|fuel IH];
    intros lastIndex last tokens H; [done|].
  simpl in H. change (scanLoop (S (S fuel)) line lastIndex last tokens)
    with (match exec tokenRegex 4 line lastIndex with
          | None => Some (tokens, last)
          | Some m => scanLoop (S fuel) line (endIndex m) (endIndex m)
                        (pushMatch line last m tokens)
          end).
  destruct (exec tokenRegex 4 line lastIndex); [by apply IH|done].
Qed.

Lemma scanLoop_fuel_le fuel fuel' line lastIndex last tokens r :
  fuel <= fuel' ->
  scanLoop fuel line lastIndex last tokens = Some r ->
  scanLoop fuel' line lastIndex last tokens = Some r.
Proof.
  induction 1 as [|fuel' _ IH]; [done|]. intros H. by apply scanLoop_fuel, IH.
Qed.

Lemma scanInv_nil line : scanInv line 0 [].
Proof.
  split; [lia|]. split; [by rewrite take_0|]. split; [done|constructor].
Qed.

Lemma scanLine_spec line :
  exists raw,
    scanLine (S (length line)) line = Some raw
    /\ concat (map text raw) = line
    /\ tokensOK line 0 raw
    /\ Forall (fun t => type t <> TKey) raw.
Proof.
  destruct (scanLoop_total (S (length line)) line 0 [] (scanInv_nil line))
    as (tokens & last & Hs & Hinv); [lia|].
  unfold scanLine. rewrite Hs.
  eexists. split; [done|].
  destruct (Nat.ltb_spec last (length line)) as [Hl|Hl].
  - destruct (scanInv_push line last tokens
                (mkToken TPlain (sliceFrom line last)) (length line))
      as (_ & H2 & H3 & H4); [done|lia| |done|done|].
    + simpl. unfold sliceFrom, sliceStr. rewrite take_ge; [done|].
      rewrite length_drop. lia.
    + rewrite take_ge in H2 by lia. done.
  - destruct Hinv as (H1 & H2 & H3 & H4).
    rewrite take_ge in H2 by lia. done.
Qed.

(** ** Key marking *)

Lemma typeEqb_true a b : typeEqb a b = true <-> a = b.
Proof. unfold typeEqb. destruct (TokenType_eq_dec a b); split; done. Qed.

Lemma jsEqb_true a b : jsEqb a b = true <-> a = b.
Proof. unfold jsEqb. apply bool_decide_eq_true. Qed.

Lemma forallb_Forall {A : Type} (p : A -> bool) (l : list A) :
  forallb p l = true <-> Forall (fun x => p x = true) l.
Proof.
  induction l as [|x l IH]; simpl.
  - split; [constructor|done].
  - rewrite andb_true_iff, IH. split.
    + intros [? ?]. by constructor.
    + by inversion 1.
Qed.

Lemma isBlankPlain_true t : isBlankPlain t = true <-> blankPlain t.
Proof.
  unfold isBlankPlain, blankPlain.
  by rewrite andb_true_iff, typeEqb_true, test_blank, forallb_Forall.
Qed.

Lemma isColon_true t : isColon t = true <-> colonToken t.
Proof.
  unfold isColon, colonToken. by rewrite andb_true_iff, typeEqb_true, jsEqb_true.
Qed.

Lemma skipBlank_spec n tokens j :
  j <= skipBlank n tokens j
  /\ (forall k, j <= k < skipBlank n tokens j ->
        exists t, tokens !! k = Some t /\ isBlankPlain t = true)
  /\ (length tokens - j <= n ->
      forall t, tokens !! skipBlank n tokens j = Some t -> isBlankPlain t = false).
Proof.
  revert j. induction n as [|n IH]; simpl; intros j.
  { split; [lia|]. split; [lia|]. intros Hn t Ht.
    apply lookup_lt_Some in Ht. lia. }
  destruct (tokens !! j) as [t|] eqn:E.
  2: { split; [lia|]. split; [lia|]. intros _ t Ht. congruence. }
  destruct (isBlankPlain t) eqn:Eb.
  2: { split; [lia|]. split; [lia|]. intros _ t' Ht. congruence. }
  destruct (IH (S j)) as (H1 & H2 & H3).
  split; [lia|]. split.
  - intros k Hk. destruct (decide (k = j)) as [->|Hne]; [eauto|].
    apply H2. lia.
  - intros Hn. apply H3. lia.
Qed.

Lemma skipBlank_ext n tokens tokens' j :
  (forall q, j <= q -> tokens !! q = tokens' !! q) ->
  skipBlank n tokens j = skipBlank n tokens' j.
Proof.
  revert j. induction n as [|n IH]; simpl; intros j H; [done|].
  rewrite <- (H j) by lia. destruct (tokens !! j) as [t|]; [|done].
  destruct (isBlankPlain t); [|done]. apply IH. intros q Hq. apply H. lia.
Qed.

Lemma keyCheck_ext tokens tokens' i :
  (forall q, i <= q -> tokens !! q = tokens' !! q) ->
  length tokens = length tokens' ->
  keyCheck tokens i = keyCheck tokens' i.
Proof.
  intros H Hl. unfold keyCheck. rewrite <- (H i) by lia.
  destruct (tokens !! i) as [t|]; [|done]. f_equal. rewrite <- Hl.
  rewrite (skipBlank_ext _ tokens tokens') by (intros q Hq; apply H; lia).
  rewrite <- H; [done|].
  pose proof (skipBlank_spec (length tokens - S i) tokens' (S i)) as [Hge _]. lia.
Qed.

Lemma markKeyAt_lookup tokens i p :
  markKeyAt tokens i !! p
  = (fun t => if decide (p = i) then (if keyCheck tokens i then asKey t else t)
              else t) <$> tokens !! p.
Proof.
  assert (Hid : forall b : bool,
            tokens !! p
            = (fun t => if decide (p = i) then (if b then t else t) else t)
                <$> tokens !! p).
  { intros b. destruct (tokens !! p) as [t'|]; simpl; [|done].
    destruct (decide (p = i)); by destruct b. }
  unfold markKeyAt, keyCheck.
  destruct (tokens !! i) as [t|] eqn:E.
  2: { destruct (tokens !! p) as [t'|] eqn:E'; simpl; [|done].
       destruct (decide (p = i)) as [->|]; [congruence|done]. }
  destruct (typeEqb (type t) TString); simpl; [|apply (Hid true)].
  destruct (tokens !! skipBlank _ _ _) as [tj|]; [|apply (Hid true)].
  destruct (isColon tj); [|apply (Hid true)].
  destruct (decide (p = i)) as [->|Hne].
  - rewrite list_lookup_insert_eq by (by apply lookup_lt_Some in E).
    by rewrite E.
  - rewrite list_lookup_insert_ne by done.
    by destruct (tokens !! p) as [t'|].
Qed.

Lemma markKeyAt_length tokens i : length (markKeyAt tokens i) = length tokens.
Proof.
  unfold markKeyAt. destruct (tokens !! i) as [t|]; [|done].
  destruct (typeEqb _ _); [|done].
  destruct (tokens !! _) as [tj|]; [|done].
  destruct (isColon tj); [|done]. apply length_insert.
Qed.

Lemma markKeysFrom_length n i tokens :
  length (markKeysFrom n i tokens) = length tokens.
Proof.
  revert i tokens. induction n as [|n IH]; simpl; intros i tokens; [done|].
  by rewrite IH, markKeyAt_length.
Qed.

(** The loop marks exactly the visited indices at which the check holds on
    the flat sequence: later iterations only read tokens that are still
    unmarked. *)
Lemma markKeysFrom_lookup n i tokens p :
  markKeysFrom n i tokens !! p
  = (fun t => if (i <=? p) && (p <? i + n) && keyCheck tokens p
              then asKey t else t) <$> tokens !! p.
Proof.
  revert i tokens. induction n as [|n IH]; simpl; intros i tokens.
  { destruct (tokens !! p) as [t|]; simpl; [|done].
    destruct (Nat.leb_spec i p), (Nat.ltb_spec p (i + 0)); simpl; try done. lia. }
  rewrite IH, markKeyAt_lookup.
  destruct (tokens !! p) as [t|] eqn:E; [|done].
  cbn [fmap option_fmap option_map]. f_equal.
  destruct (decide (p = i)) as [->|Hne].
  - destruct (Nat.leb_spec (S i) i); [lia|].
    destruct (Nat.leb_spec i i); [|lia].
    destruct (Nat.ltb_spec i (i + S n)); [|lia]. done.
  - destruct (Nat.leb_spec (S i) p), (Nat.leb_spec i p),
      (Nat.ltb_spec p (S i + n)), (Nat.ltb_spec p (i + S n));
      cbn [andb]; try done; try lia.
    rewrite (keyCheck_ext (markKeyAt tokens i) tokens); [done| |].
    + intros q Hq. rewrite markKeyAt_lookup.
      destruct (tokens !! q); simpl; [|done].
      destruct (decide (q = i)); [lia|done].
    + apply markKeyAt_length.
Qed.

Lemma keyCheck_last tokens p : length tokens <= S p -> keyCheck tokens p = false.
Proof.
  intros H. unfold keyCheck. destruct (tokens !! p) as [t|]; [|done].
  replace (length tokens - S p) with 0 by lia. simpl.
  rewrite lookup_ge_None_2 by lia. apply andb_false_r.
Qed.

Lemma markKeys_lookup tokens p :
  markKeys tokens !! p
  = (fun t => if keyCheck tokens p then asKey t else t) <$> tokens !! p.
Proof.
  unfold markKeys. rewrite markKeysFrom_lookup.
  destruct (tokens !! p) as [t|] eqn:E; simpl; [|done]. f_equal.
  destruct (Nat.ltb_spec p (length tokens - 1)) as [Hl|Hl]; simpl; [done|].
  rewrite keyCheck_last; [done|lia].
Qed.

Lemma markKeys_length tokens : length (markKeys tokens) = length tokens.
Proof. apply markKeysFrom_length. Qed.

Lemma keyCheck_String tokens p t :
  tokens !! p = Some t -> keyCheck tokens p = true -> type t = TString.
Proof.
  unfold keyCheck. intros ->. rewrite andb_true_iff, typeEqb_true. by intros [? _].
Qed.

Lemma markKeys_text tokens : map text (markKeys tokens) = map text tokens.
Proof.
  apply list_eq. intros p.
  change (map text) with (fmap (M := list) text).
  rewrite !list_lookup_fmap, markKeys_lookup.
  destruct (tokens !! p) as [t|]; simpl; [|done].
  by destruct (keyCheck tokens p).
Qed.

(** The loop's check is the spec's rule, read on the flat sequence. *)
Lemma keyCheck_spec tokens i :
  keyCheck tokens i = true
  <-> (exists t, tokens !! i = Some t /\ type t = TString)
      /\ followedByColon tokens i.
Proof.
  unfold keyCheck.
  pose proof (skipBlank_spec (length tokens - S i) tokens (S i)) as (Hge & Hbl & Hex).
  set (r := skipBlank (length tokens - S i) tokens (S i)) in *.
  split.
  - destruct (tokens !! i) as [t|] eqn:E; [|done].
    rewrite andb_true_iff, typeEqb_true. intros [Hty Hc].
    split; [eauto|].
    destruct (tokens !! r) as [tj|] eqn:Ej; [|done].
    exists r, tj. split; [lia|]. split; [done|]. split; [by apply isColon_true|].
    intros k Hk. destruct (Hbl k) as (tk & Htk & Hb); [lia|].
    exists tk. split; [done|]. by apply isBlankPlain_true.
  - intros [(t & Ht & Hty) (j & tj & Hij & Hj & Hcol & Hbetween)].
    rewrite Ht. apply andb_true_iff. split; [by apply typeEqb_true|].
    assert (r = j) as ->.
    { destruct (Nat.lt_trichotomy r j) as [Hlt|[Heq|Hgt]]; [|done|].
      - destruct (Hbetween r) as (tk & Htk & Hb); [lia|].
        apply isBlankPlain_true in Hb.
        rewrite (Hex ltac:(lia) tk Htk) in Hb. done.
      - destruct (Hbl j) as (tk & Htk & Hb); [lia|].
        apply isBlankPlain_true in Hb as [Hp _].
        destruct Hcol as [Hc _]. congruence. }
    rewrite Hj. by apply isColon_true.
Qed.

(** Marking leaves every token that is not a string as it is. *)
Lemma markKeys_lookup_other tokens p t :
  type t <> TString -> type t <> TKey ->
  markKeys tokens !! p = Some t <-> tokens !! p = Some t.
Proof.
  intros H1 H2. rewrite markKeys_lookup. split.
  - destruct (tokens !! p) as [t0|] eqn:E; simpl; [|done].
    destruct (keyCheck tokens p); intros [= <-]; [by simpl in H2|done].
  - intros E. rewrite E. simpl.
    destruct (keyCheck tokens p) eqn:Ek; [|done].
    by apply (keyCheck_String _ _ _ E) in Ek.
Qed.

Lemma followedByColon_markKeys tokens i :
  followedByColon (markKeys tokens) i <-> followedByColon tokens i.
Proof.
  assert (Hcol : forall j tj, colonToken tj ->
            markKeys tokens !! j = Some tj <-> tokens !! j = Some tj).
  { intros j tj [Hc _]. apply markKeys_lookup_other; congruence. }
  assert (Hbl : forall k tk, blankPlain tk ->
            markKeys tokens !! k = Some tk <-> tokens !! k = Some tk).
  { intros k tk [Hc _]. apply markKeys_lookup_other; congruence. }
  split; intros (j & tj & Hij & Hj & Hc & Hbetween); exists j, tj;
    (split; [done|]); (split; [by apply (Hcol j tj Hc)|]); (split; [done|]);
    intros k Hk; destruct (Hbetween k Hk) as (tk & Htk & Hb); exists tk;
    (split; [by apply (Hbl k tk Hb)|done]).
Qed.

(** ** The tokenizer *)

Lemma tokenizeLine_raw line :
  exists raw,
    scanLine (S (length line)) line = Some raw
    /\ tokenizeLineFuel (S (length line)) line = Some (tokenizeLine line)
    /\ tokenizeLine line = markKeys raw
    /\ concat (map text raw) = line
    /\ tokensOK line 0 raw
    /\ Forall (fun t => type t <> TKey) raw.
Proof.
  destruct (scanLine_spec line) as (raw & Hs & Hc & Hok & Hk).
  exists raw. unfold tokenizeLine, tokenizeLineFuel. rewrite Hs.
  repeat (split; [reflexivity || assumption|]). assumption.
Qed.

Lemma tokenizeLine_concat line : concat (map text (tokenizeLine line)) = line.
Proof.
  destruct (tokenizeLine_raw line) as (raw & _ & _ & He & Hc & _).
  by rewrite He, markKeys_text.
Qed.

(** C2. The token texts of a line, concatenated in order, are the line; the
    scanning loop reaches its end within the fuel given to it. *)
Theorem tokenizeLine_roundtrip line :
  tokenizeLineFuel (S (length line)) line = Some (tokenizeLine line)
  /\ concat (map text (tokenizeLine line)) = line.
Proof.
  split; [|apply tokenizeLine_concat].
  by destruct (tokenizeLine_raw line) as (raw & _ & Hf & _).
Qed.

(** Any larger fuel gives the same tokens. *)
Lemma tokenizeLineFuel_enough fuel line :
  length line < fuel -> tokenizeLineFuel fuel line = Some (tokenizeLine line).
Proof.
  intros Hf.
  destruct (tokenizeLine_raw line) as (raw & Hs & _ & He & _).
  unfold tokenizeLineFuel, scanLine in *.
  destruct (scanLoop (S (length line)) line 0 0 []) as [[tokens last]|] eqn:E;
    [|done].
  rewrite (scanLoop_fuel_le (S (length line)) fuel _ _ _ _ _ ltac:(lia) E).
  injection Hs as <-. by rewrite He.
Qed.

(** C9. A token is a key exactly when it was scanned as a string and is
    followed, after zero or more whitespace-only plain tokens, by the
    punctuation token [:]; the line [QUOTE a QUOTE : 1] yields
    key, punctuation, plain, number. *)
Theorem tokenizeLine_keys :
  (forall line, exists raw,
     scanLine (S (length line)) line = Some raw
     /\ length (tokenizeLine line) = length raw
     /\ forall i t, tokenizeLine line !! i = Some t ->
          (type t = TKey
           <-> (exists t0, raw !! i = Some t0 /\ type t0 = TString)
               /\ followedByColon (tokenizeLine line) i))
  /\ tokenizeLine ([QUOTE] ++ str "a" ++ [QUOTE] ++ str ": 1")
     = [mkToken TKey ([QUOTE] ++ str "a" ++ [QUOTE]);
        mkToken TPunctuation (str ":");
        mkToken TPlain (str " ");
        mkToken TNumber (str "1")].
Proof.
  split; [|by vm_compute].
  intros line.
  destruct (tokenizeLine_raw line) as (raw & Hs & _ & -> & _ & _ & Hk).
  exists raw. split; [done|]. split; [apply markKeys_length|].
  intros i t Ht. rewrite followedByColon_markKeys, <- keyCheck_spec.
  rewrite markKeys_lookup in Ht.
  destruct (raw !! i) as [t0|] eqn:E; [|done]. simpl in Ht.
  destruct (keyCheck raw i) eqn:Ek; injection Ht as <-.
  - done.
  - split; [|done]. intros Hty.
    rewrite Forall_forall in Hk. exfalso. apply (Hk t0); [|done].
    apply list_elem_of_lookup. eauto.
Qed.

Lemma markKeys_marked tokens : Forall2 marked tokens (markKeys tokens).
Proof.
  apply Forall2_same_length_lookup_2.
  { by rewrite markKeys_length. }
  intros i t t' Ht Ht'. rewrite markKeys_lookup, Ht in Ht'. simpl in Ht'.
  destruct (keyCheck tokens i) eqn:Ek; injection Ht' as <-.
  - split; [done|]. right. split; [|done]. by eapply keyCheck_String.
  - split; [done|]. by left.
Qed.

Lemma tokensOK_marked line off tokens tokens' :
  Forall2 marked tokens tokens' -> tokensOK line off tokens ->
  tokensOK line off tokens'.
Proof.
  intros H. revert off.
  induction H as [|t t' ts ts' [Htx Hty] _ IH]; simpl; intros off; [done|].
  intros [[Hne Hok] Hrest]. rewrite Htx. split; [|by apply IH].
  unfold tokenOK. rewrite Htx. split; [done|].
  destruct Hty as [->|[Hs ->]]; [done|]. by rewrite Hs in Hok.
Qed.

(** Every position of the line lies in one token, which satisfies what the
    scanner guarantees at its start offset. *)
Lemma tokenAt_spec line off tokens p :
  tokensOK line off tokens -> p < length (concat (map text tokens)) ->
  exists o t,
    tokenAt tokens p = Some (o, t) /\ o <= p
    /\ concat (map text tokens) !! p = text t !! o
    /\ tokenOK line (off + (p - o)) t.
Proof.
  revert off p. induction tokens as [|t0 ts IH]; simpl; intros off p Hok Hp;
    [lia|].
  destruct Hok as [H0 Hok]. rewrite length_app in Hp.
  destruct (Nat.ltb_spec p (length (text t0))) as [Hl|Hl].
  - exists p, t0. split; [done|]. split; [lia|].
    split; [by rewrite lookup_app_l|].
    by rewrite Nat.sub_diag, Nat.add_0_r.
  - destruct (IH (off + length (text t0)) (p - length (text t0)) Hok)
      as (o & t & Ha & Ho & Hc & Ht); [lia|].
    exists o, t. split; [done|]. split; [lia|].
    split; [by rewrite lookup_app_r|].
    replace (off + (p - o)) with (off + length (text t0) + (p - length (text t0) - o))
      by lia. done.
Qed.

(** String and key tokens are complete string literals, and the other
    typed tokens contain no quote. *)
Lemma tokenizeLine_tokensOK line : tokensOK line 0 (tokenizeLine line).
Proof.
  destruct (tokenizeLine_raw line) as (raw & _ & _ & He & _ & Hok & _).
  rewrite He. apply (tokensOK_marked line 0 raw); [apply markKeys_marked|done].
Qed.

(** The line [QUOTE abc 12]: the quote opens a string that never ends, and
    the scanner still finds the number after it. *)
Lemma plainFrom_counterexample :
  let line := [QUOTE] ++ str "abc 12" in
  line !! 0 = Some QUOTE
  /\ matchAt stringRe 0 line 0 = None
  /\ tokenizeLine line
     = [mkToken TPlain ([QUOTE] ++ str "abc "); mkToken TNumber (str "12")]
  /\ ~ plainFrom (tokenizeLine line) 0.
Proof.
  split; [reflexivity|]. split; [by vm_compute|]. split; [by vm_compute|].
  intros H. specialize (H 5 0 (mkToken TNumber (str "12"))).
  assert (Hf : TNumber = TPlain); [|discriminate].
  apply H; [lia|by vm_compute].
Qed.

(** C8 (amended). A quote at which the string alternative fails, and which
    is not inside a string token that began earlier, is emitted inside a
    plain token. *)
Theorem unterminated_quote_plain line p :
  line !! p = Some QUOTE ->
  matchAt stringRe 0 line p = None ->
  (forall o t, tokenAt (tokenizeLine line) p = Some (o, t) ->
     type t = TString \/ type t = TKey -> o = 0) ->
  exists o t, tokenAt (tokenizeLine line) p = Some (o, t) /\ type t = TPlain.
Proof.
  intros Hq Hfail Hopen.
  destruct (tokenizeLine_raw line) as (raw & _ & _ & He & Hc & Hok & _).
  pose proof (tokenizeLine_tokensOK line) as Hok'.
  pose proof (tokenizeLine_concat line) as Hc'.
  destruct (tokenAt_spec line 0 (tokenizeLine line) p Hok')
    as (o & t & Ha & Ho & Hl & [Hne Ht]).
  { rewrite Hc'. by apply lookup_lt_Some in Hq. }
  rewrite Hc', Hq in Hl.
  exists o, t. split; [done|].
  assert (Hin : QUOTE ∈ text t) by (apply list_elem_of_lookup; eauto).
  destruct (type t) eqn:Ety; try done.
  - rewrite (Hopen o t Ha) in Ht by auto. simpl in Ht.
    rewrite Nat.sub_0_r, Hfail in Ht. by destruct Ht.
  - rewrite (Hopen o t Ha) in Ht by auto. simpl in Ht.
    rewrite Nat.sub_0_r, Hfail in Ht. by destruct Ht.
Qed.

Lemma unterminated_quote_plain_witness :
  exists o t,
    tokenAt (tokenizeLine ([QUOTE] ++ str "abc 12")) 0 = Some (o, t)
    /\ type t = TPlain.
Proof.
  apply (unterminated_quote_plain ([QUOTE] ++ str "abc 12") 0).
  - reflexivity.
  - vm_compute. reflexivity.
  - intros o t. vm_compute. intros [= <- <-]. reflexivity.
Defined.

(** The editor's initial document: twelve cached lines, and line 3 with
    its key. *)
Example initial_cache :
  length (state_tokens (initState INITIAL_TEXT)) = 12
  /\ tokenizeLine (str "  " ++ quoted "flag" ++ str ": true,")
     = [mkToken TPlain (str "  "); mkToken TKey (quoted "flag");
        mkToken TPunctuation (str ":"); mkToken TPlain (str " ");
        mkToken TBoolean (str "true"); mkToken TPunctuation (str ",")].
Proof. split; vm_compute; reflexivity. Qed.

(** ** The line differ: properties *)

Lemma elem_lookup {A : Type} (a : list A) (i : nat) : elem a (Z.of_nat i) = a !! i.
Proof.
  unfold elem. destruct (Z.ltb_spec (Z.of_nat i) 0); [lia|].
  by rewrite Nat2Z.id.
Qed.

Lemma elem_neg {A : Type} (a : list A) (i : Z) : (i < 0)%Z -> elem a i = None.
Proof. intros H. unfold elem. destruct (Z.ltb_spec i 0); [done|lia]. Qed.

Lemma elem_ge {A : Type} (a : list A) (i : Z) : (len a <= i)%Z -> elem a i = None.
Proof.
  intros H. unfold elem, len in *. destruct (Z.ltb_spec i 0); [done|].
  apply lookup_ge_None_2. lia.
Qed.

Lemma elem_is_Some {A : Type} (a : list A) (i : Z) :
  (0 <= i < len a)%Z -> is_Some (elem a i).
Proof.
  intros H. unfold elem, len in *. destruct (Z.ltb_spec i 0); [lia|].
  apply lookup_lt_is_Some_2. lia.
Qed.

Lemma strictEq_true x y : strictEq x y = true <-> x = y.
Proof. unfold strictEq. apply bool_decide_eq_true. Qed.

Lemma prefixLoop_bounds n oldLines newLines minLen s :
  (s <= minLen)%Z ->
  (s <= prefixLoop n oldLines newLines minLen s <= minLen)%Z.
Proof.
  revert s. induction n as [|n IH]; simpl; intros s Hs; [lia|].
  destruct (_ && _) eqn:E; [|lia].
  apply andb_true_iff in E as [E1 _]. apply Z.ltb_lt in E1.
  specialize (IH (s + 1)%Z). lia.
Qed.

Lemma prefixLoop_eq n oldLines newLines minLen s i :
  (s <= i < prefixLoop n oldLines newLines minLen s)%Z ->
  elem oldLines i = elem newLines i.
Proof.
  revert s. induction n as [|n IH]; simpl; intros s Hi; [lia|].
  destruct (_ && _) eqn:E; [|lia].
  apply andb_true_iff in E as [_ E2]. apply strictEq_true in E2.
  destruct (decide (i = s)) as [->|Hne]; [done|].
  apply (IH (s + 1)%Z). lia.
Qed.

(** The first loop leaves through its test: [n] iterations are enough. *)
Lemma prefixLoop_exit n oldLines newLines minLen s :
  (minLen - s <= Z.of_nat n)%Z ->
  (prefixLoop n oldLines newLines minLen s < minLen)%Z ->
  elem oldLines (prefixLoop n oldLines newLines minLen s)
  <> elem newLines (prefixLoop n oldLines newLines minLen s).
Proof.
  revert s. induction n as [|n IH]; simpl; intros s Hn Hlt; [lia|].
  destruct (_ && _) eqn:E.
  - apply IH; [lia|done].
  - apply andb_false_iff in E as [E|E].
    + apply Z.ltb_ge in E. lia.
    + intros Heq. apply strictEq_true in Heq. congruence.
Qed.

Lemma suffixLoop_spec n oldLines newLines st eo en :
  let r := suffixLoop n oldLines newLines st eo en in
  (r.1 - r.2 = eo - en)%Z /\ (r.1 <= eo)%Z
  /\ ((st - 1 <= eo)%Z -> (st - 1 <= r.1)%Z)
  /\ ((st - 1 <= en)%Z -> (st - 1 <= r.2)%Z)
  /\ (forall k, (1 <= k <= eo - r.1)%Z ->
        elem oldLines (r.1 + k) = elem newLines (r.2 + k)).
Proof.
  revert eo en. induction n as [|n IH]; simpl; intros eo en.
  { repeat split; try lia. }
  destruct (_ && _) eqn:E; simpl.
  2: { repeat split; try lia. }
  apply andb_true_iff in E as [E E3]. apply andb_true_iff in E as [E1 E2].
  apply Z.leb_le in E1, E2. apply strictEq_true in E3.
  destruct (IH (eo - 1)%Z (en - 1)%Z) as (H1 & H2 & H3 & H4 & H5).
  repeat split; try lia.
  intros k Hk.
  destruct (decide (k = eo - (suffixLoop n oldLines newLines st (eo - 1) (en - 1)).1)%Z)
    as [->|Hne].
  - replace (_ + _)%Z with eo by lia.
    replace (_ + _)%Z with en by lia. done.
  - apply H5. lia.
Qed.

(** The second loop leaves through its test as well. *)
Lemma suffixLoop_exit n oldLines newLines st eo en :
  (eo - st + 1 <= Z.of_nat n)%Z ->
  let r := suffixLoop n oldLines newLines st eo en in
  (r.1 < st)%Z \/ (r.2 < st)%Z \/ elem oldLines r.1 <> elem newLines r.2.
Proof.
  revert eo en. induction n as [|n IH]; simpl; intros eo en Hn.
  { left. lia. }
  destruct (_ && _) eqn:E; simpl.
  - apply IH. lia.
  - apply andb_false_iff in E as [E|E].
    + apply andb_false_iff in E as [E|E]; apply Z.leb_gt in E; auto.
    + right; right. intros Heq. apply strictEq_true in Heq. congruence.
Qed.

Lemma findChangedRange_Some oldLines newLines r :
  findChangedRange oldLines newLines = Some r ->
  (0 <= start r <= Z.min (len oldLines) (len newLines))%Z
  /\ (start r - 1 <= endOld r < len oldLines)%Z
  /\ (start r - 1 <= endNew r < len newLines)%Z
  /\ (len oldLines - endOld r = len newLines - endNew r)%Z
  /\ (forall i, (i < start r)%Z -> elem oldLines i = elem newLines i)
  /\ (forall k, (1 <= k)%Z ->
        elem oldLines (endOld r + k) = elem newLines (endNew r + k)).
Proof.
  unfold findChangedRange.
  set (minLen := Z.min (len oldLines) (len newLines)).
  set (s := prefixLoop (Z.to_nat minLen) oldLines newLines minLen 0).
  assert (Hmin : (0 <= minLen)%Z) by (unfold minLen, len; lia).
  pose proof (prefixLoop_bounds (Z.to_nat minLen) oldLines newLines minLen 0 Hmin)
    as Hs. fold s in Hs.
  destruct (_ && _) eqn:E; [done|].
  pose proof (suffixLoop_spec (length oldLines) oldLines newLines s
                (len oldLines - 1) (len newLines - 1)) as Hsuf.
  destruct (suffixLoop _ _ _ _ _ _) as [eo en]; simpl in Hsuf.
  destruct Hsuf as (H1 & H2 & H3 & H4 & H5).
  intros [= <-]; simpl.
  repeat split; try lia.
  - intros i Hi. destruct (Z.ltb_spec i 0) as [Hneg|Hpos].
    + by rewrite !elem_neg.
    + apply (prefixLoop_eq (Z.to_nat minLen) _ _ minLen 0). fold s. lia.
  - intros k Hk. destruct (Z.leb_spec k (len oldLines - 1 - eo)) as [Hin|Hout].
    + apply H5. lia.
    + rewrite !elem_ge; [done|lia|lia].
Qed.

Lemma findChangedRange_None oldLines newLines :
  findChangedRange oldLines newLines = None -> oldLines = newLines.
Proof.
  unfold findChangedRange.
  set (minLen := Z.min (len oldLines) (len newLines)).
  set (s := prefixLoop (Z.to_nat minLen) oldLines newLines minLen 0).
  destruct (_ && _) eqn:E.
  2: { by destruct (suffixLoop _ _ _ _ _ _). }
  intros _. apply andb_true_iff in E as [E1 E2].
  apply Z.eqb_eq in E1, E2.
  apply list_eq. intros i. rewrite <- !elem_lookup.
  destruct (Z.ltb_spec (Z.of_nat i) s) as [Hlt|Hge].
  - apply (prefixLoop_eq (Z.to_nat minLen) _ _ minLen 0). fold s. lia.
  - rewrite !elem_ge; [done|lia|lia].
Qed.

Lemma findChangedRange_suffix oldLines newLines r :
  findChangedRange oldLines newLines = Some r ->
  drop (Z.to_nat (endOld r + 1)) oldLines
  = drop (Z.to_nat (endNew r + 1)) newLines.
Proof.
  intros H. apply findChangedRange_Some in H as (H0 & H1 & H2 & H3 & H4 & H5).
  apply list_eq. intros i. rewrite !lookup_drop, <- !elem_lookup.
  replace (Z.of_nat (Z.to_nat (endOld r + 1) + i))
    with (endOld r + (1 + Z.of_nat i))%Z by lia.
  replace (Z.of_nat (Z.to_nat (endNew r + 1) + i))
    with (endNew r + (1 + Z.of_nat i))%Z by lia.
  apply H5. lia.
Qed.

Lemma findChangedRange_prefix oldLines newLines r :
  findChangedRange oldLines newLines = Some r ->
  take (Z.to_nat (start r)) oldLines = take (Z.to_nat (start r)) newLines.
Proof.
  intros H. apply findChangedRange_Some in H as (H0 & H1 & H2 & H3 & H4 & H5).
  apply list_eq. intros i.
  destruct (Nat.ltb_spec i (Z.to_nat (start r))) as [Hl|Hl].
  - rewrite !lookup_take_lt by done. rewrite <- !elem_lookup. apply H4. lia.
  - by rewrite !lookup_take_ge.
Qed.

(** The result is the largest common prefix and, after it, the largest
    common suffix: both loops stop at their tests. *)
Lemma findChangedRange_maximal oldLines newLines r :
  findChangedRange oldLines newLines = Some r ->
  ((start r < Z.min (len oldLines) (len newLines))%Z ->
   elem oldLines (start r) <> elem newLines (start r))
  /\ ((endOld r < start r)%Z \/ (endNew r < start r)%Z
      \/ elem oldLines (endOld r) <> elem newLines (endNew r)).
Proof.
  unfold findChangedRange.
  set (minLen := Z.min (len oldLines) (len newLines)).
  set (s := prefixLoop (Z.to_nat minLen) oldLines newLines minLen 0).
  assert (Hmin : (0 <= minLen)%Z) by (unfold minLen, len; lia).
  pose proof (prefixLoop_bounds (Z.to_nat minLen) oldLines newLines minLen 0 Hmin)
    as Hs. fold s in Hs.
  destruct (_ && _) eqn:E; [done|].
  pose proof (suffixLoop_exit (length oldLines) oldLines newLines s
                (len oldLines - 1) (len newLines - 1)) as Hex.
  destruct (suffixLoop _ _ _ _ _ _) as [eo en]; simpl in Hex.
  intros [= <-]; simpl. split.
  - apply prefixLoop_exit. lia.
  - apply Hex. unfold len. lia.
Qed.

(** C6. The regions outside the changed ranges are identical under the
    end-aligned correspondence: the lines before [start] are pairwise equal,
    and the lines after [endOld] in the old sequence are, in order, the
    lines after [endNew] in the new one. *)
Theorem findChangedRange_regions oldLines newLines r :
  findChangedRange oldLines newLines = Some r ->
  (forall i, (i < start r)%Z -> elem oldLines i = elem newLines i)
  /\ (forall k, (1 <= k)%Z ->
        (endOld r + k < len oldLines)%Z -> (endNew r + k < len newLines)%Z ->
        elem oldLines (endOld r + k) = elem newLines (endNew r + k))
  /\ drop (Z.to_nat (endOld r + 1)) oldLines
     = drop (Z.to_nat (endNew r + 1)) newLines.
Proof.
  intros H. pose proof (findChangedRange_suffix _ _ _ H) as Hsuf.
  apply findChangedRange_Some in H as (H0 & H1 & H2 & H3 & H4 & H5).
  split; [done|]. split; [auto|done].
Qed.

Lemma findChangedRange_regions_witness :
  findChangedRange [str "a"; str "b"; str "c"] [str "a"; str "x"; str "b"; str "c"]
  = Some (mkRange 1 0 1)
  /\ drop 1 [str "a"; str "b"; str "c"] = drop 2 [str "a"; str "x"; str "b"; str "c"].
Proof.
  split; [reflexivity|].
  exact (proj2 (proj2 (findChangedRange_regions
    [str "a"; str "b"; str "c"] [str "a"; str "x"; str "b"; str "c"]
    (mkRange 1 0 1) eq_refl))).
Defined.

(** Inserting a line shifts the common suffix: index 2 lies beyond
    [max endOld endNew = 1] and holds different lines. *)
Lemma pairwiseOutside_counterexample :
  findChangedRange [str "a"; str "b"; str "c"] [str "a"; str "x"; str "b"; str "c"]
  = Some (mkRange 1 0 1)
  /\ ~ pairwiseOutside [str "a"; str "b"; str "c"]
         [str "a"; str "x"; str "b"; str "c"] (mkRange 1 0 1).
Proof.
  split; [reflexivity|].
  intros H. specialize (H 2%Z). simpl in H.
  assert (Hne : elem [str "a"; str "b"; str "c"] 2
                <> elem [str "a"; str "x"; str "b"; str "c"] 2)
    by (vm_compute; discriminate).
  apply Hne, H; unfold len; simpl; lia.
Qed.

(** C5 (amended). Lines before [start] are pairwise equal; lines after
    [max endOld endNew] are pairwise equal when the old and the new sequence
    have the same number of lines. *)
Theorem findChangedRange_outside oldLines newLines r :
  findChangedRange oldLines newLines = Some r ->
  forall i,
    (i < start r
     \/ (len oldLines = len newLines /\ Z.max (endOld r) (endNew r) < i))%Z ->
    elem oldLines i = elem newLines i.
Proof.
  intros H i Hi.
  apply findChangedRange_Some in H as (H0 & H1 & H2 & H3 & H4 & H5).
  destruct Hi as [Hi|[Hlen Hi]]; [auto|].
  assert (Heq : endOld r = endNew r) by lia.
  replace i with (endOld r + (i - endOld r))%Z at 1 by lia.
  replace i with (endNew r + (i - endOld r))%Z at 2 by lia.
  apply H5. lia.
Qed.

Lemma findChangedRange_outside_witness :
  elem [str "a"; str "b"; str "c"] 2 = elem [str "a"; str "x"; str "c"] 2.
Proof.
  apply (findChangedRange_outside [str "a"; str "b"; str "c"]
           [str "a"; str "x"; str "c"] (mkRange 1 1 1) eq_refl 2%Z).
  right. split; [reflexivity|]. simpl. lia.
Defined.

(** ** The token cache: properties *)

Lemma split_length sep s : 0 < length (split sep s).
Proof.
  induction s as [|c s IH]; simpl; [lia|].
  destruct (N.eqb c sep); simpl; [lia|].
  destruct (split sep s); simpl in *; lia.
Qed.

Lemma arraySet_push a v : arraySet a (length a) v = a ++ [v].
Proof.
  unfold arraySet. destruct (Nat.ltb_spec (length a) (length a)); [lia|].
  by rewrite Nat.sub_diag.
Qed.

Lemma appendMissing_app n newLines tokens :
  appendMissing n (length tokens) newLines tokens
  = tokens ++ map lineHtml (take n (drop (length tokens) newLines)).
Proof.
  revert tokens. induction n as [|n IH]; intros tokens; simpl.
  { by rewrite app_nil_r. }
  destruct (newLines !! length tokens) as [l|] eqn:E.
  - rewrite arraySet_push.
    replace (S (length tokens)) with (length (tokens ++ [lineHtml l]))
      by (rewrite length_app; simpl; lia).
    rewrite IH, (drop_S _ _ _ E), length_app; simpl.
    rewrite <- app_assoc. simpl. rewrite Nat.add_1_r. done.
  - apply lookup_ge_None_1 in E. rewrite drop_ge by done.
    by rewrite take_nil, app_nil_r.
Qed.

Lemma fixLength_length tokens newLines :
  length (fixLength tokens newLines) = length newLines.
Proof.
  unfold fixLength.
  destruct (Nat.ltb_spec (length newLines) (length tokens)).
  { rewrite length_take. lia. }
  destruct (Nat.ltb_spec (length tokens) (length newLines)); [|lia].
  rewrite appendMissing_app, length_app, length_map, length_take, length_drop.
  lia.
Qed.

Lemma fixLength_lookup tokens newLines i :
  i < length tokens -> i < length newLines ->
  fixLength tokens newLines !! i = tokens !! i.
Proof.
  intros H1 H2. unfold fixLength.
  destruct (Nat.ltb_spec (length newLines) (length tokens)).
  { by rewrite lookup_take_lt. }
  destruct (Nat.ltb_spec (length tokens) (length newLines)); [|done].
  rewrite appendMissing_app. by apply lookup_app_l.
Qed.

Lemma relIndex_nonneg n i : (0 <= i)%Z -> relIndex n i = Z.min i n.
Proof. intros H. unfold relIndex. destruct (Z.ltb_spec i 0); [lia|done]. Qed.

Lemma retokenizeRange_lookup tokens newLines s e i :
  (0 <= s)%Z -> (Z.of_nat i < s)%Z -> i < length tokens ->
  retokenizeRange tokens newLines s e !! i = tokens !! i
  /\ i < length (retokenizeRange tokens newLines s e).
Proof.
  intros Hs Hi Hlen. unfold retokenizeRange, splice.
  rewrite relIndex_nonneg by done.
  assert (Hi' : i < Z.to_nat (Z.min s (len tokens))) by (unfold len; lia).
  split.
  - rewrite lookup_app_l by (rewrite length_take; lia).
    by rewrite lookup_take_lt.
  - rewrite length_app, length_take. lia.
Qed.

(** In the changed case the length fix-up alone restores the invariant,
    whatever the cache was before. *)
Lemma syncFromInput_changed_length st input r :
  findChangedRange (lines st) (split NEWLINE (value input)) = Some r ->
  length (state_tokens (syncFromInput st input))
  = length (split NEWLINE (value input)).
Proof.
  intros H. unfold syncFromInput; simpl. rewrite H. apply fixLength_length.
Qed.

Lemma syncFromInput_text st input :
  state_text (syncFromInput st input) = value input.
Proof. done. Qed.

(** One update cycle preserves the cache-length invariant. *)
Lemma syncFromInput_length st input :
  length (state_tokens st) = length (lines st) ->
  length (state_tokens (syncFromInput st input))
  = length (lines (syncFromInput st input)).
Proof.
  intros Hinv. unfold lines at 1. rewrite syncFromInput_text.
  destruct (findChangedRange (lines st) (split NEWLINE (value input))) as [r|] eqn:E.
  - by apply (syncFromInput_changed_length _ _ r).
  - unfold syncFromInput; simpl. rewrite E.
    apply findChangedRange_None in E. by rewrite <- E.
Qed.

Lemma initState_length initialText :
  length (state_tokens (initState initialText))
  = length (lines (initState initialText)).
Proof. unfold initState, lines; simpl. apply length_map. Qed.

Lemma run_length st inputs :
  length (state_tokens st) = length (lines st) ->
  length (state_tokens (run st inputs)) = length (lines (run st inputs)).
Proof.
  unfold run. revert st. induction inputs as [|input inputs IH]; intros st H.
  { done. }
  simpl. apply IH. by apply syncFromInput_length.
Qed.

Lemma retokenizeRange_eq tokens newLines s e :
  (0 <= s <= len tokens)%Z -> (s - 1 <= e < len newLines)%Z ->
  retokenizeRange tokens newLines s e
  = take (Z.to_nat s) tokens
    ++ map lineHtml (take (Z.to_nat (e + 1 - s)) (drop (Z.to_nat s) newLines))
    ++ drop (Z.to_nat (e + 1)) tokens.
Proof.
  intros Hs He. unfold retokenizeRange, splice, sliceArr.
  rewrite !relIndex_nonneg by lia.
  replace (Z.min s (len tokens)) with s by lia.
  replace (Z.min s (len newLines)) with s by lia.
  replace (Z.min (e + 1) (len newLines)) with (e + 1)%Z by lia.
  do 2 f_equal.
  destruct (Z.leb_spec (e + 1) (len tokens)) as [Hl|Hl].
  - f_equal. lia.
  - unfold len in *. rewrite !drop_ge; [done|lia|lia].
Qed.

(** An edit that keeps the number of lines leaves the cache equal to a
    tokenization from scratch. *)
Lemma syncFromInput_same_count st input :
  state_tokens st = map lineHtml (lines st) ->
  length (lines st) = length (split NEWLINE (value input)) ->
  state_tokens (syncFromInput st input)
  = map lineHtml (split NEWLINE (value input)).
Proof.
  intros Hc Hlen. unfold syncFromInput; simpl.
  set (newLines := split NEWLINE (value input)) in *.
  destruct (findChangedRange (lines st) newLines) as [r|] eqn:E.
  2: { apply findChangedRange_None in E. by rewrite Hc, E. }
  pose proof (findChangedRange_prefix _ _ _ E) as Hpre.
  pose proof (findChangedRange_suffix _ _ _ E) as Hsuf.
  apply findChangedRange_Some in E as (H0 & H1 & H2 & H3 & H4 & H5).
  assert (Heq : endOld r = endNew r) by (unfold len in *; lia).
  rewrite Heq in Hsuf.
  assert (Hre : retokenizeRange (state_tokens st) newLines (start r) (endNew r)
                = map lineHtml newLines).
  { rewrite retokenizeRange_eq by (rewrite ?Hc; unfold len in *;
                                   rewrite ?length_map; lia).
    rewrite Hc.
    change (map lineHtml) with (fmap (M := list) lineHtml).
    rewrite <- fmap_take, <- fmap_drop, Hpre, Hsuf, <- !fmap_app. f_equal.
    rewrite app_assoc, take_take_drop.
    replace (Z.to_nat (start r) + Z.to_nat (endNew r + 1 - start r))
      with (Z.to_nat (endNew r + 1)) by lia.
    apply take_drop. }
  rewrite Hre. unfold fixLength. rewrite length_map.
  destruct (Nat.ltb_spec (length newLines) (length newLines)); [lia|done].
Qed.

(** C7. After every completed update cycle the token cache has one entry
    per document line: for the state reached from any initial text by any
    sequence of input events, and any further input event, the cache length
    after [syncFromInput] is the number of lines of the new text. *)
Theorem cache_length_invariant initialText inputs input :
  length (state_tokens (syncFromInput (run (initState initialText) inputs) input))
  = length (split NEWLINE (value input)).
Proof.
  pose proof (run_length (initState initialText) inputs
                (initState_length initialText)) as H.
  apply (syncFromInput_length _ input) in H. exact H.
Qed.

(** C10. An update leaves every cache entry below [start] as it was. *)
Theorem syncFromInput_prefix_frame st input r i :
  findChangedRange (lines st) (split NEWLINE (value input)) = Some r ->
  (i < start r)%Z ->
  ((0 <= i < len (state_tokens st))%Z ->
   elem (state_tokens (syncFromInput st input)) i = elem (state_tokens st) i)
  /\ (length (state_tokens st) = length (lines st) ->
      elem (state_tokens (syncFromInput st input)) i = elem (state_tokens st) i).
Proof.
  intros H Hi.
  pose proof (findChangedRange_Some _ _ _ H) as (H0 & H1 & H2 & H3 & H4 & H5).
  assert (Hin : (0 <= i < len (state_tokens st))%Z ->
    elem (state_tokens (syncFromInput st input)) i = elem (state_tokens st) i).
  { intros Hr. unfold syncFromInput; simpl. rewrite H.
    replace i with (Z.of_nat (Z.to_nat i)) by lia. rewrite !elem_lookup.
    destruct (retokenizeRange_lookup (state_tokens st)
                (split NEWLINE (value input)) (start r) (endNew r) (Z.to_nat i))
      as [Ha Hb]; [lia|lia|unfold len in Hr; lia|].
    rewrite fixLength_lookup; [done|done|]. unfold len in *. lia. }
  split; [done|].
  intros Hinv. destruct (Z.ltb_spec i 0) as [Hneg|Hpos].
  - by rewrite !elem_neg.
  - apply Hin. unfold len in *. lia.
Qed.

Lemma syncFromInput_prefix_frame_witness :
  elem (state_tokens (syncFromInput (initState abc) (mkInput axbc 3 3))) 0
  = elem (state_tokens (initState abc)) 0.
Proof.
  apply (syncFromInput_prefix_frame (initState abc) (mkInput axbc 3 3)
           (mkRange 1 0 1) 0%Z).
  - vm_compute. reflexivity.
  - simpl. lia.
  - vm_compute. split; discriminate.
Defined.

(** C1. Inserting a line before unchanged lines leaves a stale entry: the
    splice removes as many entries as it inserts, so the cache keeps the
    HTML of the old line 2 where the new line 2 belongs. *)
Theorem cache_stale_after_insert :
  let st := initState abc in
  let st' := syncFromInput st (mkInput axbc 3 3) in
  state_tokens st = map lineHtml (lines st)
  /\ findChangedRange (lines st) (split NEWLINE axbc) = Some (mkRange 1 0 1)
  /\ state_tokens st'
     = [lineHtml (str "a"); lineHtml (str "x"); lineHtml (str "c"); lineHtml (str "c")]
  /\ map lineHtml (lines st')
     = [lineHtml (str "a"); lineHtml (str "x"); lineHtml (str "b"); lineHtml (str "c")]
  /\ elem (state_tokens st') 2 <> elem (map lineHtml (lines st')) 2.
Proof.
  repeat split; try (vm_compute; reflexivity). vm_compute. discriminate.
Qed.

(** ** The visible range: properties *)

Section ViewportProperties.

Variable LINE_HEIGHT : Z.
Hypothesis LINE_HEIGHT_pos : (0 < LINE_HEIGHT)%Z.

Lemma lineHeight_posQ : (0 < inject_Z LINE_HEIGHT)%Q.
Proof using LINE_HEIGHT_pos.
  change (inject_Z 0 < inject_Z LINE_HEIGHT)%Q. by rewrite <- Zlt_Qlt.
Qed.

Lemma lineHeight_neq0 : ~ (inject_Z LINE_HEIGHT == 0)%Q.
Proof using LINE_HEIGHT_pos.
  intros H. pose proof lineHeight_posQ as Hp. rewrite H in Hp.
  by apply Qlt_irrefl in Hp.
Qed.

(** [floor (x / LINE_HEIGHT) < n] exactly when [x < n * LINE_HEIGHT]. *)
Lemma floor_div_lt (x : Q) (n : Z) :
  (Qfloor (x / inject_Z LINE_HEIGHT) < n)%Z
  <-> (x < inject_Z (n * LINE_HEIGHT))%Q.
Proof using LINE_HEIGHT_pos.
  pose proof lineHeight_posQ as Hp. pose proof lineHeight_neq0 as Hn.
  rewrite inject_Z_mult. split.
  - intros H.
    assert (H1 : (x / inject_Z LINE_HEIGHT < inject_Z n)%Q).
    { eapply Qlt_le_trans; [apply Qlt_floor|].
      rewrite <- Zle_Qle. lia. }
    apply (Qmult_lt_compat_r _ _ _ Hp) in H1.
    rewrite Qmult_comm, Qmult_div_r in H1 by done. done.
  - intros H. apply Qlt_shift_div_r in H; [|done].
    rewrite Zlt_Qlt. eapply Qle_lt_trans; [apply Qfloor_le|done].
Qed.

Lemma ceiling_div_nonneg (x : Q) :
  (0 <= x)%Q -> (0 <= Qceiling (x / inject_Z LINE_HEIGHT))%Z.
Proof using LINE_HEIGHT_pos.
  intros H. change 0%Z with (Qceiling 0). apply Qceiling_resp_le.
  apply Qle_shift_div_l; [apply lineHeight_posQ|]. by rewrite Qmult_0_l.
Qed.

(** [i * LINE_HEIGHT < a + b] bounds [i] by the floor of [a] and the
    ceiling of [b]. *)
Lemma index_lt_floor_ceiling (a b : Q) (i : Z) :
  (inject_Z (i * LINE_HEIGHT) < a + b)%Q ->
  (i <= Qfloor (a / inject_Z LINE_HEIGHT) + Qceiling (b / inject_Z LINE_HEIGHT))%Z.
Proof using LINE_HEIGHT_pos.
  pose proof lineHeight_posQ as Hp.
  intros H. rewrite inject_Z_mult in H.
  apply Qlt_shift_div_l in H; [|done].
  assert (Hsum : ((a + b) / inject_Z LINE_HEIGHT
                  == a / inject_Z LINE_HEIGHT + b / inject_Z LINE_HEIGHT)%Q).
  { unfold Qdiv. apply Qmult_plus_distr_l. }
  rewrite Hsum in H.
  pose proof (Qlt_floor (a / inject_Z LINE_HEIGHT)) as Hf.
  pose proof (Qle_ceiling (b / inject_Z LINE_HEIGHT)) as Hc.
  assert (Hlt : (inject_Z i
                 < inject_Z (Qfloor (a / inject_Z LINE_HEIGHT) + 1
                             + Qceiling (b / inject_Z LINE_HEIGHT)))%Q).
  { rewrite inject_Z_plus. eapply Qlt_trans; [exact H|].
    apply Qplus_lt_le_compat; done. }
  rewrite <- Zlt_Qlt in Hlt. lia.
Qed.

Lemma totalLines_pos st : (1 <= totalLines st)%Z.
Proof. unfold totalLines, len, lines. pose proof (split_length NEWLINE (state_text st)). lia. Qed.

(** C3. Every line of the document whose pixel span meets the viewport lies
    in the returned range. *)
Theorem computeVisibleRange_covers st i :
  (0 <= state_scrollTop st)%Q -> (0 <= state_viewportHeight st)%Q ->
  (0 <= i < totalLines st)%Z ->
  spanIntersects LINE_HEIGHT i (state_scrollTop st) (state_viewportHeight st) ->
  (first (computeVisibleRange LINE_HEIGHT st) <= i
   <= last (computeVisibleRange LINE_HEIGHT st))%Z.
Proof using LINE_HEIGHT_pos.
  intros Hs Hv Hi (y & Hy1 & Hy2 & Hy3 & Hy4).
  assert (Hlo : (Qfloor (state_scrollTop st / inject_Z LINE_HEIGHT) < i + 1)%Z).
  { apply floor_div_lt. eapply Qle_lt_trans; done. }
  assert (Hhi : (i <= Qfloor (state_scrollTop st / inject_Z LINE_HEIGHT)
                      + Qceiling (state_viewportHeight st / inject_Z LINE_HEIGHT))%Z).
  { apply index_lt_floor_ceiling. eapply Qle_lt_trans; done. }
  unfold computeVisibleRange, RENDER_BUFFER; cbn [first last]. lia.
Qed.

(** C4 (amended). The range is non-empty exactly when the scroll offset
    lies less than [RENDER_BUFFER] lines beyond the end of the document. *)
Theorem computeVisibleRange_nonempty st :
  (0 <= state_scrollTop st)%Q -> (0 <= state_viewportHeight st)%Q ->
  (first (computeVisibleRange LINE_HEIGHT st)
   <= last (computeVisibleRange LINE_HEIGHT st))%Z
  <-> (state_scrollTop st
       < inject_Z ((totalLines st + RENDER_BUFFER) * LINE_HEIGHT))%Q.
Proof using LINE_HEIGHT_pos.
  intros Hs Hv. rewrite <- floor_div_lt.
  pose proof (ceiling_div_nonneg _ Hv) as Hc.
  pose proof (totalLines_pos st) as Ht.
  unfold computeVisibleRange, RENDER_BUFFER; cbn [first last]. lia.
Qed.

End ViewportProperties.

Lemma computeVisibleRange_covers_witness :
  (first (computeVisibleRange 28 scrolled) <= 5
   <= last (computeVisibleRange 28 scrolled))%Z.
Proof.
  apply (computeVisibleRange_covers 28 ltac:(lia) scrolled 5%Z).
  - vm_compute. discriminate.
  - vm_compute. discriminate.
  - vm_compute. split; [discriminate|reflexivity].
  - exists 150%Q. vm_compute. repeat split; discriminate.
Defined.

(** The document shrinks to one line while the stored scroll offset still
    points at line 20: the range is empty although there is a line. *)
Lemma computeVisibleRange_empty_counterexample :
  let st := syncFromInput (onScroll (initState (replicate 30 NEWLINE)) 560 0)
              (mkInput [] 0 0) in
  (0 <= state_scrollTop st)%Q /\ (0 <= state_viewportHeight st)%Q
  /\ (1 <= totalLines st)%Z
  /\ (last (computeVisibleRange 28 st) < first (computeVisibleRange 28 st))%Z.
Proof.
  repeat split; vm_compute; (discriminate || reflexivity).
Qed.

Lemma computeVisibleRange_nonempty_witness :
  (first (computeVisibleRange 28 scrolled)
   <= last (computeVisibleRange 28 scrolled))%Z.
Proof.
  apply (computeVisibleRange_nonempty 28 ltac:(lia) scrolled).
  - vm_compute. discriminate.
  - vm_compute. discriminate.
  - vm_compute. reflexivity.
Defined.

(** * Further properties *)

(** ** The shape of the tokens *)

Lemma execFrom_first r g s n i m :
  execFrom r g s n i = Some m ->
  forall p, i <= p < index m -> matchAt r g s p = None.
Proof.
  revert i. induction n as [|n IH]; simpl; intros i H p Hp; [done|].
  destruct (matchAt r g s i) as [[j c']|] eqn:E.
  - injection H as <-. simpl in Hp. lia.
  - destruct (decide (p = i)) as [->|Hne]; [done|].
    apply (IH (S i)); [done|lia].
Qed.

Lemma execFrom_None r g s n i :
  execFrom r g s n i = None ->
  forall p, i <= p < i + n -> matchAt r g s p = None.
Proof.
  revert i. induction n as [|n IH]; simpl; intros i H p Hp; [lia|].
  destruct (matchAt r g s i) as [[j c']|] eqn:E; [done|].
  destruct (decide (p = i)) as [->|Hne]; [done|].
  apply (IH (S i)); [done|lia].
Qed.

Lemma tokenRegex_cases s i j c' :
  Matches s tokenRegex i (noCaptures 4) j c' ->
  (c' = <[1 := Some (i, j)]> (noCaptures 4)
   /\ Matches s stringRe i (noCaptures 4) j (noCaptures 4))
  \/ (c' = <[2 := Some (i, j)]> (noCaptures 4)
      /\ Matches s numberRe i (noCaptures 4) j (noCaptures 4))
  \/ (c' = <[3 := Some (i, j)]> (noCaptures 4)
      /\ Matches s wordRe i (noCaptures 4) j (noCaptures 4)
      /\ wordBoundary s i = true /\ wordBoundary s j = true)
  \/ (c' = <[4 := Some (i, j)]> (noCaptures 4)
      /\ Matches s punctRe i (noCaptures 4) j (noCaptures 4)).
Proof.
  intros Hm. unfold tokenRegex in Hm.
  inversion Hm as [| | | ? ? ? ? ? ? H1 | ? ? ? ? ? ? H1 | | | |]; subst; clear Hm.
  { inversion H1 as [| | | | | | | | ? ? ? ? ? ? H2]; subst.
    pose proof (Matches_hasGroup _ _ _ _ _ _ H2 eq_refl) as ->. by left. }
  right.
  inversion H1 as [| | | ? ? ? ? ? ? H2 | ? ? ? ? ? ? H2 | | | |]; subst; clear H1.
  { inversion H2 as [| | | | | | | | ? ? ? ? ? ? H3]; subst.
    pose proof (Matches_hasGroup _ _ _ _ _ _ H3 eq_refl) as ->. by left. }
  right.
  inversion H2 as [| | | ? ? ? ? ? ? H3 | ? ? ? ? ? ? H3 | | | |]; subst; clear H2.
  { inversion H3 as [| | ? ? ? ? ? ? ? ? Ha Hb | | | | | |]; subst.
    inversion Ha as [| | | | | | | ? ? ? Hwa |]; subst.
    inversion Hb as [| | ? ? ? ? ? ? ? ? Hg He | | | | | |]; subst.
    inversion He as [| | | | | | | ? ? ? Hwe |]; subst.
    inversion Hg as [| | | | | | | | ? ? ? ? ? ? H4]; subst.
    pose proof (Matches_hasGroup _ _ _ _ _ _ H4 eq_refl) as ->. by left. }
  right.
  inversion H3 as [| | | | | | | | ? ? ? ? ? ? H4]; subst.
  pose proof (Matches_hasGroup _ _ _ _ _ _ H4 eq_refl) as ->. done.
Qed.

(** What one iteration of the scanning loop pushes. *)
Lemma pushMatch_shape line lastIndex tokens m :
  exec tokenRegex 4 line lastIndex = Some m ->
  exists ty,
    ty <> TPlain /\ ty <> TKey
    /\ pushMatch line lastIndex m tokens
       = (if lastIndex <? index m
          then tokens ++ [mkToken TPlain (sliceStr line lastIndex (index m))]
          else tokens)
         ++ [mkToken ty (sliceStr line (index m) (endIndex m))]
    /\ lastIndex <= index m /\ index m < endIndex m <= length line
    /\ (forall p, lastIndex <= p < index m -> matchAt tokenRegex 4 line p = None)
    /\ shapeOK line (index m) (endIndex m) ty.
Proof.
  intros He.
  pose proof (execFrom_first _ _ _ _ _ _ He) as Hfirst.
  apply exec_sound in He as [Hidx (c' & Hm & Hg)].
  pose proof (tokenRegex_Matches _ _ _ _ Hm) as (Hlt & Hj & _).
  apply tokenRegex_cases in Hm.
  destruct m as [idx j gs]; simpl in *. subst gs.
  destruct (sliceStr_cons line idx j Hlt Hj) as (x & l & Hs).
  destruct Hm as [[ -> Hs1] | [[ -> Hs2] | [[ -> (Hs3 & Hb1 & Hb2)] | [ -> Hs4]]]].
  - exists TString. unfold pushMatch, group, noCaptures; simpl.
    rewrite Hs; simpl. by repeat split; try lia.
  - exists TNumber. unfold pushMatch, group, noCaptures; simpl.
    rewrite Hs; simpl. by repeat split; try lia.
  - destruct (jsEqb (sliceStr line idx j) (str "null")) eqn:En.
    + exists TNull. unfold pushMatch, group, noCaptures; simpl.
      rewrite Hs; simpl. rewrite <- Hs, En.
      apply jsEqb_true in En. by repeat split; try lia.
    + exists TBoolean. unfold pushMatch, group, noCaptures; simpl.
      rewrite Hs; simpl. rewrite <- Hs, En.
      repeat split; try lia; try done.
      intros Heq. apply jsEqb_true in Heq. congruence.
  - exists TPunctuation. unfold pushMatch, group, noCaptures; simpl.
    rewrite Hs; simpl. by repeat split; try lia.
Qed.

Lemma shaped_snoc line off tokens t :
  shaped line off tokens ->
  (let o := off + length (concat (map text tokens)) in
   text t = sliceStr line o (o + length (text t))
   /\ o + length (text t) <= length line
   /\ text t <> []
   /\ shapeOK line o (o + length (text t)) (type t)) ->
  shaped line off (tokens ++ [t]).
Proof.
  revert off. induction tokens as [|t0 ts IH]; simpl; intros off H Ht.
  - rewrite Nat.add_0_r in Ht. tauto.
  - destruct H as (H1 & H2 & H3 & H4 & H5). repeat split; try done.
    apply IH; [done|]. rewrite length_app, Nat.add_assoc in Ht. done.
Qed.

Lemma noAdjacentPlain_snoc tokens t :
  noAdjacentPlain tokens ->
  (type t = TPlain -> lastNotPlain tokens) ->
  noAdjacentPlain (tokens ++ [t]).
Proof.
  induction tokens as [|t1 ts IH]; simpl; intros H Ht; [done|].
  destruct H as [H1 H2]. split.
  - destruct ts as [|t2 ts']; simpl; [|done].
    intros [Hp1 Hp2]. by apply (Ht Hp2 [] t1).
  - apply IH; [done|]. intros Hp pre t' ->.
    apply (Ht Hp (t1 :: pre) t'). done.
Qed.

Lemma lastNotPlain_snoc tokens t : type t <> TPlain -> lastNotPlain (tokens ++ [t]).
Proof. intros H pre t' Heq. apply app_inj_tail in Heq as [_ <-]. done. Qed.

Lemma scanInv2_step line lastIndex tokens m :
  scanInv2 line lastIndex tokens ->
  exec tokenRegex 4 line lastIndex = Some m ->
  scanInv2 line (endIndex m) (pushMatch line lastIndex m tokens).
Proof.
  intros (H1 & H2 & H3 & H4 & H5) He.
  destruct (pushMatch_shape line lastIndex tokens m He)
    as (ty & Hp & Hk & -> & Hle & Hlt & Hgap & Hshape).
  set (tokens1 := if lastIndex <? index m
                  then tokens ++ [mkToken TPlain (sliceStr line lastIndex (index m))]
                  else tokens).
  assert (Hinv1 : length (concat (map text tokens1)) = index m
                  /\ shaped line 0 tokens1 /\ noAdjacentPlain tokens1).
  { unfold tokens1. destruct (Nat.ltb_spec lastIndex (index m)) as [Hl|Hl].
    - split; [|split].
      + rewrite map_app, concat_app, length_app, H2; simpl.
        rewrite app_nil_r, sliceStr_length by lia. lia.
      + apply shaped_snoc; [done|]. simpl. rewrite H2; simpl.
        rewrite sliceStr_length by lia.
        replace (lastIndex + (index m - lastIndex)) with (index m) by lia.
        repeat split; try done; try lia.
        destruct (sliceStr_cons line lastIndex (index m)) as (x & l & ->);
          [lia|lia|done].
      + apply noAdjacentPlain_snoc; done.
    - replace (index m) with lastIndex by lia. done. }
  destruct Hinv1 as (Ha & Hb & Hc).
  split; [lia|]. split; [|split; [|split]].
  - rewrite map_app, concat_app, length_app, Ha; simpl.
    rewrite app_nil_r, sliceStr_length by lia. lia.
  - apply shaped_snoc; [done|]. simpl. rewrite Ha; simpl.
    rewrite sliceStr_length by lia.
    replace (index m + (endIndex m - index m)) with (endIndex m) by lia.
    repeat split; try done; try lia.
    destruct (sliceStr_cons line (index m) (endIndex m)) as (x & l & ->);
      [lia|lia|done].
  - apply noAdjacentPlain_snoc; [done|]. simpl. done.
  - by apply lastNotPlain_snoc.
Qed.

Lemma scanLoop_inv2 fuel line lastIndex tokens tokens' last' :
  scanInv2 line lastIndex tokens ->
  scanLoop fuel line lastIndex lastIndex tokens = Some (tokens', last') ->
  scanInv2 line last' tokens'
  /\ forall p, last' <= p < length line -> matchAt tokenRegex 4 line p = None.
Proof.
  revert lastIndex tokens. induction fuel as [|fuel IH];
    intros lastIndex tokens Hinv H; [done|].
  simpl in H. destruct (exec tokenRegex 4 line lastIndex) as [m|] eqn:E.
  - apply (IH (endIndex m) (pushMatch line lastIndex m tokens)); [|done].
    by apply scanInv2_step.
  - injection H as <- <-. split; [done|].
    intros p Hp. apply (execFrom_None _ _ _ _ _ E). lia.
Qed.

Lemma scanLine_shaped line raw :
  scanLine (S (length line)) line = Some raw ->
  shaped line 0 raw /\ noAdjacentPlain raw.
Proof.
  unfold scanLine.
  destruct (scanLoop (S (length line)) line 0 0 []) as [[tokens lst]|] eqn:E;
    [|done].
  intros [= <-].
  destruct (scanLoop_inv2 (S (length line)) line 0 [] tokens lst)
    as [(H1 & H2 & H3 & H4 & H5) Hno]; [|done|].
  { split; [lia|]. split; [done|]. split; [done|]. split; [done|].
    intros pre t Heq. by destruct pre. }
  destruct (Nat.ltb_spec lst (length line)) as [Hl|Hl]; [|done].
  split.
  - apply shaped_snoc; [done|]. simpl. rewrite H2. unfold sliceFrom.
    rewrite length_drop.
    replace (lst + (length line - lst)) with (length line) by lia.
    repeat split; try done.
    + unfold sliceStr. rewrite take_ge; [done|]. rewrite length_drop. lia.
    + intros Hnil. apply (f_equal length) in Hnil.
      rewrite length_drop in Hnil. simpl in Hnil. lia.
  - apply noAdjacentPlain_snoc; done.
Qed.

Lemma shaped_marked line off tokens tokens' :
  Forall2 marked tokens tokens' -> shaped line off tokens ->
  shaped line off tokens'.
Proof.
  intros H. revert off.
  induction H as [|t t' ts ts' [Htx Hty] _ IH]; simpl; intros off; [done|].
  rewrite Htx. intros (H1 & H2 & H3 & H4 & H5).
  repeat split; try done; [|by apply IH].
  destruct Hty as [->|[Hs ->]]; [done|]. by rewrite Hs in H4.
Qed.

Lemma noAdjacentPlain_marked tokens tokens' :
  Forall2 marked tokens tokens' -> noAdjacentPlain tokens ->
  noAdjacentPlain tokens'.
Proof.
  assert (Hpl : forall t t', marked t t' -> type t' = TPlain -> type t = TPlain).
  { intros t t' [_ [Heq|[_ Hk]]] Hp; congruence. }
  induction 1 as [|t t' ts ts' Hm Hrest IH]; simpl; [done|].
  intros [H1 H2]. split; [|by apply IH].
  destruct Hrest as [|t2 t2' ? ? Hm2 _]; [done|].
  intros [Hp1 Hp2]. apply H1. split; eauto.
Qed.

Lemma tokenizeLine_shaped line :
  shaped line 0 (tokenizeLine line) /\ noAdjacentPlain (tokenizeLine line).
Proof.
  destruct (tokenizeLine_raw line) as (raw & Hs & _ & He & _).
  apply scanLine_shaped in Hs as [H1 H2]. rewrite He.
  pose proof (markKeys_marked raw) as Hm.
  split; [by apply (shaped_marked line 0 raw)|by apply (noAdjacentPlain_marked raw)].
Qed.

(** The facts about the token of a line that follows the tokens [pre]. *)
Lemma shaped_split line off pre t post :
  shaped line off (pre ++ t :: post) ->
  let o := off + length (concat (map text pre)) in
  text t = sliceStr line o (o + length (text t))
  /\ o + length (text t) <= length line
  /\ text t <> []
  /\ shapeOK line o (o + length (text t)) (type t).
Proof.
  revert off. induction pre as [|t0 pre IH]; simpl; intros off H.
  - rewrite Nat.add_0_r. tauto.
  - destruct H as (_ & _ & _ & _ & H). apply IH in H.
    rewrite length_app, Nat.add_assoc. done.
Qed.

Lemma tokenizeLine_split line pre t post :
  tokenizeLine line = pre ++ t :: post ->
  let o := length (concat (map text pre)) in
  text t = sliceStr line o (o + length (text t))
  /\ o + length (text t) <= length line
  /\ text t <> []
  /\ shapeOK line o (o + length (text t)) (type t).
Proof.
  intros H. pose proof (tokenizeLine_shaped line) as [Hs _]. rewrite H in Hs.
  apply (shaped_split line 0) in Hs. done.
Qed.

Lemma tokenizeLine_elem line t :
  t ∈ tokenizeLine line ->
  exists o,
    text t = sliceStr line o (o + length (text t))
    /\ o + length (text t) <= length line
    /\ text t <> []
    /\ shapeOK line o (o + length (text t)) (type t).
Proof.
  intros Hin. apply list_elem_of_split in Hin as (pre & post & H).
  eexists. by apply (tokenizeLine_split line pre t post).
Qed.

Lemma sliceStr_lookup s a b k :
  k < b - a -> sliceStr s a b !! k = s !! (a + k).
Proof. intros H. unfold sliceStr. by rewrite lookup_take_lt, lookup_drop. Qed.

Lemma Matches_Lit s w : forall i c j c',
  Matches s (Lit w) i c j c' -> j = i + length w /\ sliceStr s i j = w.
Proof.
  induction w as [|x w IH]; simpl; intros i c j c' H.
  - inversion H; subst. split; [lia|]. unfold sliceStr.
    by rewrite Nat.sub_diag.
  - inversion H as [| | ? ? ? ? ? ? ? ? H1 H2 | | | | | |]; subst.
    inversion H1 as [| ? ? ? ch Hl Hp | | | | | | |]; subst.
    apply N.eqb_eq in Hp as <-.
    apply IH in H2 as [-> Hs]. split; [lia|].
    unfold sliceStr in *. rewrite (drop_S _ _ _ Hl).
    replace (S i + length w - i) with (S (length w)) by lia. simpl.
    f_equal. rewrite <- Hs at 2. f_equal. lia.
Qed.

Lemma Matches_wordRe s i c j c' :
  Matches s wordRe i c j c' ->
  sliceStr s i j = str "true" \/ sliceStr s i j = str "false"
  \/ sliceStr s i j = str "null".
Proof.
  unfold wordRe. intros H.
  inversion H as [| | | ? ? ? ? ? ? H1 | ? ? ? ? ? ? H1 | | | |]; subst.
  { apply (Matches_Lit s (str "true")) in H1 as [_ ?]. auto. }
  inversion H1 as [| | | ? ? ? ? ? ? H2 | ? ? ? ? ? ? H2 | | | |]; subst.
  - apply (Matches_Lit s (str "false")) in H2 as [_ ?]. auto.
  - apply (Matches_Lit s (str "null")) in H2 as [_ ?]. auto.
Qed.

(** X1. No token is empty, and a line has no tokens exactly when it is the
    empty line. *)
Theorem tokenizeLine_no_empty_token line :
  (forall t, t ∈ tokenizeLine line -> text t <> [])
  /\ (tokenizeLine line = [] <-> line = []).
Proof.
  split.
  - intros t Ht. by apply tokenizeLine_elem in Ht as (o & _ & _ & Hne & _).
  - split.
    + intros H. pose proof (tokenizeLine_concat line) as Hc.
      by rewrite H in Hc.
    + intros ->. reflexivity.
Qed.

Lemma noAdjacentPlain_lookup tokens i t1 t2 :
  noAdjacentPlain tokens ->
  tokens !! i = Some t1 -> tokens !! S i = Some t2 ->
  type t1 = TPlain -> type t2 <> TPlain.
Proof.
  revert i. induction tokens as [|t ts IH]; intros i H H1 H2 Hp; [done|].
  destruct H as [Ha Hb]. destruct i as [|i]; simpl in *.
  - injection H1 as ->. destruct ts as [|t' ts']; [done|].
    simpl in H2. injection H2 as ->. intros Hp2. by apply Ha.
  - by apply (IH i).
Qed.

(** X2. Plain tokens are maximal: two plain tokens never follow each
    other. *)
Theorem tokenizeLine_plain_not_adjacent line i t1 t2 :
  tokenizeLine line !! i = Some t1 ->
  tokenizeLine line !! S i = Some t2 ->
  type t1 = TPlain -> type t2 <> TPlain.
Proof.
  apply noAdjacentPlain_lookup. apply tokenizeLine_shaped.
Qed.

Lemma tokenizeLine_plain_not_adjacent_witness :
  type (mkToken TNumber (str "12")) <> TPlain.
Proof.
  apply (tokenizeLine_plain_not_adjacent (str "ab 12") 0 (mkToken TPlain (str "ab "))).
  - vm_compute. reflexivity.
  - vm_compute. reflexivity.
  - reflexivity.
Defined.

Lemma digit_matches s p ch :
  s !! p = Some ch -> isDigit ch = true ->
  Matches s tokenRegex p (noCaptures 4) (S p) (<[2 := Some (p, S p)]> (noCaptures 4)).
Proof.
  intros Hl Hd. unfold tokenRegex. apply M_AltR, M_AltL, M_Group.
  unfold numberRe, Opt, Plus.
  eapply M_Seq; [apply M_AltR, M_Empty|].
  eapply M_Seq; [eapply M_Seq; [by eapply M_Class|apply M_StarStop]|].
  eapply M_Seq; apply M_AltR, M_Empty.
Qed.

Lemma punct_matches s p ch :
  s !! p = Some ch -> isPunct ch = true ->
  Matches s tokenRegex p (noCaptures 4) (S p) (<[4 := Some (p, S p)]> (noCaptures 4)).
Proof.
  intros Hl Hd. unfold tokenRegex. apply M_AltR, M_AltR, M_AltR, M_Group.
  unfold punctRe. by eapply M_Class.
Qed.

(** X3. Every digit and every punctuation mark outside a string is part of
    a typed token: a plain token holds neither. *)
Theorem tokenizeLine_plain_chars line t ch :
  t ∈ tokenizeLine line -> type t = TPlain -> ch ∈ text t ->
  isDigit ch = false /\ isPunct ch = false.
Proof.
  intros Ht Hty Hch.
  apply tokenizeLine_elem in Ht as (o & Htx & Hle & Hne & Hshape).
  rewrite Hty in Hshape. simpl in Hshape.
  apply list_elem_of_lookup in Hch as [k Hk].
  pose proof (lookup_lt_Some _ _ _ Hk) as Hlt.
  rewrite Htx, sliceStr_lookup in Hk by lia.
  specialize (Hshape (o + k) ltac:(lia)).
  split; apply not_true_is_false; intros Hc.
  - pose proof (matchAt_complete _ _ _ _ _ _ (digit_matches _ _ _ Hk Hc)) as Hs.
    rewrite Hshape in Hs. by destruct Hs.
  - pose proof (matchAt_complete _ _ _ _ _ _ (punct_matches _ _ _ Hk Hc)) as Hs.
    rewrite Hshape in Hs. by destruct Hs.
Qed.

Lemma tokenizeLine_plain_chars_witness :
  isDigit 97 = false /\ isPunct 97 = false.
Proof.
  apply (tokenizeLine_plain_chars (str "ab 12") (mkToken TPlain (str "ab "))).
  - vm_compute. apply list_elem_of_here.
  - reflexivity.
  - vm_compute. apply list_elem_of_here.
Defined.

Lemma alphabet_numberRe ch : alphabet numberRe ch = true -> isNumberChar ch = true.
Proof.
  unfold isNumberChar, numberRe, Opt, Plus, Chr. cbn [alphabet].
  rewrite !(N.eqb_sym _ ch).
  destruct (isDigit ch), (N.eqb ch 45), (N.eqb ch 46), (N.eqb ch 101),
    (N.eqb ch 69), (N.eqb ch 43); simpl; done.
Qed.

Lemma Matches_numberRe_head s i c j c' :
  Matches s numberRe i c j c' ->
  exists d, isDigit d = true
    /\ (s !! i = Some d
        \/ (s !! i = Some 45%N /\ s !! S i = Some d /\ S (S i) <= j)).
Proof.
  unfold numberRe, Opt, Plus. intros H.
  inversion H as [| | ? ? ? ? ? ? ? ? Hminus Hrest | | | | | |]; subst.
  inversion Hrest as [| | ? ? ? ? ? ? ? ? Hdig Htail | | | | | |]; subst.
  inversion Hdig as [| | ? ? ? ? ? ? ? ? Hd Hst | | | | | |]; subst.
  inversion Hd as [| ? ? ? d Hl Hp | | | | | | |]; subst.
  apply Matches_bounds in Hst as [Hb1 _]. apply Matches_bounds in Htail as [Hb2 _].
  exists d. split; [done|].
  inversion Hminus as [| | | ? ? ? ? ? ? H1 | ? ? ? ? ? ? H1 | | | |]; subst.
  - inversion H1 as [| ? ? ? m Hlm Hpm | | | | | | |]; subst.
    apply N.eqb_eq in Hpm as <-. right. repeat split; [done|done|lia].
  - inversion H1; subst. auto.
Qed.

(** X4. A number token is made of digits and the characters [- + . e E]
    only, and starts with a digit or with a minus sign and a digit. *)
Theorem tokenizeLine_number_chars line t :
  t ∈ tokenizeLine line -> type t = TNumber ->
  Forall (fun ch => isNumberChar ch = true) (text t)
  /\ exists d, isDigit d = true
       /\ (text t !! 0 = Some d
           \/ (text t !! 0 = Some 45%N /\ text t !! 1 = Some d)).
Proof.
  intros Ht Hty.
  apply tokenizeLine_elem in Ht as (o & Htx & Hle & Hne & Hshape).
  rewrite Hty in Hshape. simpl in Hshape. split.
  - apply Forall_forall. intros ch Hch.
    apply list_elem_of_lookup in Hch as [k Hk].
    pose proof (lookup_lt_Some _ _ _ Hk) as Hlt.
    rewrite Htx, sliceStr_lookup in Hk by lia.
    destruct (Matches_alphabet _ _ _ _ _ _ Hshape (o + k)) as (ch' & Hl & Ha);
      [lia|].
    apply alphabet_numberRe. congruence.
  - destruct (Matches_numberRe_head _ _ _ _ _ Hshape) as (d & Hd & Hcase).
    exists d. split; [done|].
    assert (Hlen : 0 < length (text t)) by (destruct (text t); simpl; [done|lia]).
    destruct Hcase as [H0|(H0 & H1 & Hlen2)].
    + left. rewrite Htx, sliceStr_lookup by lia. by rewrite Nat.add_0_r.
    + right. split.
      * rewrite Htx, sliceStr_lookup by lia. by rewrite Nat.add_0_r.
      * rewrite Htx, sliceStr_lookup by lia. by rewrite Nat.add_1_r.
Qed.

Lemma tokenizeLine_number_chars_witness :
  Forall (fun ch => isNumberChar ch = true) (str "-1.5e3")
  /\ exists d, isDigit d = true
       /\ (str "-1.5e3" !! 0 = Some d
           \/ (str "-1.5e3" !! 0 = Some 45%N /\ str "-1.5e3" !! 1 = Some d)).
Proof.
  apply (tokenizeLine_number_chars (str "x = -1.5e3") (mkToken TNumber (str "-1.5e3"))).
  - vm_compute. apply list_elem_of_further, list_elem_of_here.
  - reflexivity.
Defined.

(** X5. A null token reads [null] and a boolean token reads [true] or
    [false]. *)
Theorem tokenizeLine_word_texts line t :
  t ∈ tokenizeLine line ->
  (type t = TNull -> text t = str "null")
  /\ (type t = TBoolean -> text t = str "true" \/ text t = str "false").
Proof.
  intros Ht.
  apply tokenizeLine_elem in Ht as (o & Htx & Hle & Hne & Hshape).
  split; intros Hty; rewrite Hty in Hshape; simpl in Hshape.
  - destruct Hshape as (_ & _ & _ & Hs). congruence.
  - destruct Hshape as (Hm & _ & _ & Hn).
    apply Matches_wordRe in Hm as [Hm|[Hm|Hm]]; [left|right|done]; congruence.
Qed.

Lemma tokenizeLine_word_texts_witness :
  str "true" = str "true" \/ str "true" = str "false".
Proof.
  refine (proj2 (tokenizeLine_word_texts (str "x: true")
                   (mkToken TBoolean (str "true")) _) eq_refl).
  vm_compute. do 3 apply list_elem_of_further. apply list_elem_of_here.
Defined.

(** X6. A punctuation token is a single character, one of [{ } [ ] : ,]. *)
Theorem tokenizeLine_punctuation_single line t :
  t ∈ tokenizeLine line -> type t = TPunctuation ->
  exists c, text t = [c] /\ isPunct c = true.
Proof.
  intros Ht Hty.
  apply tokenizeLine_elem in Ht as (o & Htx & Hle & Hne & Hshape).
  rewrite Hty in Hshape. simpl in Hshape. unfold punctRe in Hshape.
  inversion Hshape as [| ? ? ? ch Hl Hp | | | | | | |]; subst.
  exists ch. split; [|done].
  assert (Hlen : length (text t) = 1) by lia.
  rewrite Htx, Hlen. unfold sliceStr.
  replace (o + 1 - o) with 1 by lia. by rewrite (drop_S _ _ _ Hl).
Qed.

Lemma tokenizeLine_punctuation_single_witness :
  exists c, str ":" = [c] /\ isPunct c = true.
Proof.
  apply (tokenizeLine_punctuation_single (str "a:b") (mkToken TPunctuation (str ":"))).
  - vm_compute. apply list_elem_of_further, list_elem_of_here.
  - reflexivity.
Defined.

(** X7. A string token and a key token start and end with a double quote:
    they are a quote, a body and a quote. *)
Theorem tokenizeLine_string_quotes line t :
  t ∈ tokenizeLine line -> type t = TString \/ type t = TKey ->
  exists body, text t = [QUOTE] ++ body ++ [QUOTE].
Proof.
  intros Ht Hty.
  apply tokenizeLine_elem in Ht as (o & Htx & Hle & Hne & Hshape).
  assert (Hm : Matches line stringRe o (noCaptures 4) (o + length (text t))
                 (noCaptures 4)).
  { destruct Hty as [Hty|Hty]; rewrite Hty in Hshape; exact Hshape. }
  clear Hshape. unfold stringRe in Hm.
  inversion Hm as [| | ? ? ? ? ? ? ? ? Hq Hrest | | | | | |]; subst.
  inversion Hq as [| ? ? ? q1 Hl1 Hp1 | | | | | | |]; subst.
  apply N.eqb_eq in Hp1 as <-.
  inversion Hrest as [| | ? ? ? ? ? ? ? ? Hstar Hq2 | | | | | |]; subst.
  inversion Hq2 as [| ? ? ? q2 Hl2 Hp2 | | | | | | |]; subst.
  apply N.eqb_eq in Hp2 as <-.
  apply Matches_bounds in Hstar as [Hsb _].
  exists (sliceStr line (S o) j).
  rewrite Htx. unfold sliceStr.
  replace (o + length (text t) - o) with (S (S (j - S o))) by lia.
  rewrite (drop_S _ _ _ Hl1). simpl. f_equal.
  rewrite (take_S_r _ _ QUOTE); [done|].
  rewrite lookup_drop. by replace (S o + (j - S o)) with j by lia.
Qed.

Lemma tokenizeLine_string_quotes_witness :
  exists body, quoted "a" = [QUOTE] ++ body ++ [QUOTE].
Proof.
  apply (tokenizeLine_string_quotes (quoted "a" ++ str ": 1")
           (mkToken TKey (quoted "a"))).
  - vm_compute. apply list_elem_of_here.
  - by right.
Defined.

Lemma word_ends line o n :
  (sliceStr line o (o + n) = str "true" \/ sliceStr line o (o + n) = str "false"
   \/ sliceStr line o (o + n) = str "null") ->
  o + n <= length line ->
  0 < n /\ isWordAt line o = true /\ isWordAt line (o + n - 1) = true.
Proof.
  intros Hw Hle.
  assert (Hn : length (sliceStr line o (o + n)) = n)
    by (rewrite sliceStr_length; lia).
  assert (Hat : forall k, k < n ->
            line !! (o + k) = sliceStr line o (o + n) !! k)
    by (intros k Hk; rewrite sliceStr_lookup; [done|lia]).
  unfold isWordAt.
  destruct Hw as [Hw|[Hw|Hw]]; rewrite Hw in Hn, Hat; simpl in Hn; subst n;
    (split; [lia|]);
    rewrite <- (Nat.add_0_r o) at 1; rewrite (Hat 0) by lia;
    (split; [reflexivity|]).
  - replace (o + 4 - 1) with (o + 3) by lia. by rewrite (Hat 3) by lia.
  - replace (o + 5 - 1) with (o + 4) by lia. by rewrite (Hat 4) by lia.
  - replace (o + 4 - 1) with (o + 3) by lia. by rewrite (Hat 3) by lia.
Qed.

(** X8. Boolean and null tokens are whole words: the character before the
    token, if any, and the character after it, if any, are not word
    characters. *)
Theorem tokenizeLine_word_boundaries line pre t post :
  tokenizeLine line = pre ++ t :: post ->
  type t = TBoolean \/ type t = TNull ->
  let o := length (concat (map text pre)) in
  match o with
  | O => True
  | S o' => isWordAt line o' = false
  end
  /\ isWordAt line (o + length (text t)) = false.
Proof.
  intros H Hty o.
  destruct (tokenizeLine_split line pre t post H) as (Htx & Hle & Hne & Hshape).
  fold o in Htx, Hle, Hshape.
  assert (Hm : Matches line wordRe o (noCaptures 4) (o + length (text t))
                 (noCaptures 4)
               /\ wordBoundary line o = true
               /\ wordBoundary line (o + length (text t)) = true).
  { destruct Hty as [Hty|Hty]; rewrite Hty in Hshape; simpl in Hshape; tauto. }
  destruct Hm as (Hm & Hb1 & Hb2).
  apply Matches_wordRe in Hm.
  destruct (word_ends line o (length (text t)) Hm Hle) as (Hn & Hw1 & Hw2).
  unfold wordBoundary in Hb1, Hb2. rewrite Hw1 in Hb1.
  replace (o + length (text t)) with (S (o + length (text t) - 1)) in Hb2 at 1
    by lia.
  rewrite Hw2 in Hb2. split.
  - destruct o as [|o']; [done|]. by destruct (isWordAt line o').
  - by destruct (isWordAt line (o + length (text t))).
Qed.

Lemma tokenizeLine_word_boundaries_witness :
  isWordAt (str "[true]") 0 = false /\ isWordAt (str "[true]") 5 = false.
Proof.
  apply (tokenizeLine_word_boundaries (str "[true]")
           [mkToken TPunctuation (str "[")] (mkToken TBoolean (str "true"))
           [mkToken TPunctuation (str "]")]).
  - vm_compute. reflexivity.
  - by left.
Defined.

(** X9. The whitespace test of the key pass, [/^\s*$/.test(s)], holds
    exactly when every code unit of [s] is white space; in particular it
    holds for the empty string. *)
Theorem blank_test_all_space s :
  test blankRegex s = true <-> Forall (fun ch => isSpace ch = true) s.
Proof. by rewrite test_blank, forallb_Forall. Qed.

(** X10. Every match that [tokenRegex.exec] returns starts at or after
    [lastIndex], is not empty and ends inside the line, so each iteration
    of the scanning loop moves [lastIndex] forward. *)
Theorem exec_tokenRegex_progress line lastIndex m :
  exec tokenRegex 4 line lastIndex = Some m ->
  lastIndex <= index m /\ index m < endIndex m /\ endIndex m <= length line.
Proof.
  intros H. apply exec_sound in H as [Hi (c' & Hm & _)].
  apply tokenRegex_Matches in Hm as (Hlt & Hle & _). lia.
Qed.

Lemma exec_tokenRegex_progress_witness :
  2 <= 3 /\ 3 < 5 /\ 5 <= length (str "ab 12").
Proof.
  apply (exec_tokenRegex_progress (str "ab 12") 2
           (mkMatch 3 5 [Some (3, 5); None; Some (3, 5); None; None])).
  vm_compute. reflexivity.
Defined.

(** ** The HTML of a line *)

Lemma replaceAll_app c rep a b :
  replaceAll c rep (a ++ b) = replaceAll c rep a ++ replaceAll c rep b.
Proof.
  induction a as [|x a IH]; simpl; [done|]. by rewrite IH, app_assoc.
Qed.

(** The three passes of [escapeHtml] amount to one pass that replaces each
    code unit by its entity: no pass touches what an earlier one wrote. *)
Lemma escapeHtml_chars s : escapeHtml s = concat (map escChar s).
Proof.
  unfold escapeHtml. induction s as [|x s IH]; simpl; [done|].
  rewrite !replaceAll_app, IH. f_equal. unfold escChar.
  destruct (N.eqb_spec x 38) as [->|H38]; [reflexivity|].
  simpl. destruct (N.eqb_spec x 60) as [->|H60]; [reflexivity|].
  simpl. destruct (N.eqb_spec x 62) as [->|H62]; [reflexivity|].
  by rewrite app_nil_r.
Qed.

Lemma escChar_no_angle c x : x ∈ escChar c -> x <> 60%N /\ x <> 62%N.
Proof.
  unfold escChar. intros Hin. apply list_elem_of_In in Hin.
  destruct (N.eqb_spec c 38).
  { simpl in Hin. intuition (subst; discriminate). }
  destruct (N.eqb_spec c 60).
  { simpl in Hin. intuition (subst; discriminate). }
  destruct (N.eqb_spec c 62).
  { simpl in Hin. intuition (subst; discriminate). }
  simpl in Hin. destruct Hin as [<-|[]]. done.
Qed.

Lemma escapeHtml_angle_free s :
  (60%N ∉ escapeHtml s) /\ (62%N ∉ escapeHtml s).
Proof.
  rewrite escapeHtml_chars.
  split; intros Hin; apply list_elem_of_In, in_concat in Hin as (l & Hl & Hx);
    apply in_map_iff in Hl as (c & <- & _);
    apply list_elem_of_In, escChar_no_angle in Hx; tauto.
Qed.

(** X11. The escaped text holds no angle bracket, whatever the text. *)
Theorem escapeHtml_no_angle s :
  (60%N ∉ escapeHtml s) /\ (62%N ∉ escapeHtml s).
Proof. apply escapeHtml_angle_free. Qed.

Lemma escChar_prefix a b r1 r2 :
  escChar a ++ r1 = escChar b ++ r2 -> a = b /\ r1 = r2.
Proof.
  unfold escChar.
  destruct (N.eqb_spec a 38) as [->|Ha1], (N.eqb_spec b 38) as [->|Hb1];
    simpl.
  - intros [= ->]. done.
  - destruct (N.eqb_spec b 60) as [->|Hb2]; simpl; [intros [=]|].
    destruct (N.eqb_spec b 62) as [->|Hb3]; simpl; [intros [=]|].
    intros [= <-]. done.
  - destruct (N.eqb_spec a 60) as [->|Ha2]; simpl; [intros [=]|].
    destruct (N.eqb_spec a 62) as [->|Ha3]; simpl; [intros [=]|].
    intros [= ->]. done.
  - destruct (N.eqb_spec a 60) as [->|Ha2], (N.eqb_spec b 60) as [->|Hb2];
      simpl.
    + intros [= ->]. done.
    + destruct (N.eqb_spec b 62) as [->|Hb3]; simpl; [intros [=]|].
      intros [= <-]. done.
    + destruct (N.eqb_spec a 62) as [->|Ha3]; simpl; [intros [=]|].
      intros [= ->]. done.
    + destruct (N.eqb_spec a 62) as [->|Ha3], (N.eqb_spec b 62) as [->|Hb3];
        simpl.
      * intros [= ->]. done.
      * intros [= <-]. done.
      * intros [= ->]. done.
      * intros [= -> ->]. done.
Qed.

(** X12. Escaping loses nothing: different texts have different escaped
    texts. *)
Theorem escapeHtml_injective a b : escapeHtml a = escapeHtml b -> a = b.
Proof.
  rewrite !escapeHtml_chars. revert b.
  induction a as [|x a IH]; intros [|y b]; simpl; intros H.
  - done.
  - unfold escChar in H.
    destruct (N.eqb y 38); [done|]. destruct (N.eqb y 60); [done|].
    destruct (N.eqb y 62); done.
  - unfold escChar in H.
    destruct (N.eqb x 38); [done|]. destruct (N.eqb x 60); [done|].
    destruct (N.eqb x 62); done.
  - apply escChar_prefix in H as [-> H]. f_equal. by apply IH.
Qed.

Lemma escapeHtml_injective_witness : str "a<b" = str "a<b".
Proof. apply escapeHtml_injective. reflexivity. Defined.

Lemma count_occ_none (l : list N) (x : N) :
  x ∉ l -> count_occ N.eq_dec l x = 0.
Proof. intros H. apply count_occ_not_In. by rewrite <- list_elem_of_In. Qed.

Lemma tokenHtml_angles t :
  count_occ N.eq_dec (tokenHtml t) 60%N = if isTyped t then 2 else 0.
Proof.
  pose proof (escapeHtml_angle_free (text t)) as [Hlt _].
  apply count_occ_none in Hlt.
  unfold tokenHtml, isTyped, typeEqb.
  destruct (type t); simpl; rewrite ?count_occ_app, ?Hlt; try done;
    rewrite ?count_occ_app, ?Hlt; reflexivity.
Qed.

(** X13. The only opening angle brackets in the HTML of a token sequence
    are those of the [span] tags, two for every token that is not plain:
    token text never adds markup. *)
Theorem tokensToHtml_angles tokens :
  count_occ N.eq_dec (tokensToHtml tokens) 60%N
  = 2 * length (List.filter isTyped tokens).
Proof.
  unfold tokensToHtml. induction tokens as [|t ts IH]; simpl; [done|].
  rewrite count_occ_app, IH, tokenHtml_angles.
  destruct (isTyped t); simpl; lia.
Qed.

(** ** More on the line differ *)

Lemma prefixLoop_same n lines s :
  (0 <= s)%Z -> (s + Z.of_nat n = len lines)%Z ->
  prefixLoop n lines lines (len lines) s = len lines.
Proof.
  revert s. induction n as [|n IH]; simpl; intros s Hs Hn; [lia|].
  destruct (Z.ltb_spec s (len lines)); [|lia].
  assert (Heq : strictEq (elem lines s) (elem lines s) = true)
    by by apply strictEq_true.
  rewrite Heq. simpl. apply IH; lia.
Qed.

Lemma findChangedRange_same lines : findChangedRange lines lines = None.
Proof.
  unfold findChangedRange. rewrite Z.min_id.
  rewrite prefixLoop_same by (unfold len; lia).
  by rewrite Z.eqb_refl.
Qed.

(** X14. The differ reports no change exactly for identical sequences. *)
Theorem findChangedRange_None_iff oldLines newLines :
  findChangedRange oldLines newLines = None <-> oldLines = newLines.
Proof.
  split; [apply findChangedRange_None|]. intros ->. apply findChangedRange_same.
Qed.

(** X15. The change range is a patch: the new sequence is the old prefix
    before [start], the new lines [start .. endNew], and the old suffix after
    [endOld]. *)
Theorem findChangedRange_patch oldLines newLines r :
  findChangedRange oldLines newLines = Some r ->
  newLines
  = take (Z.to_nat (start r)) oldLines
    ++ sliceArr newLines (start r) (endNew r + 1)
    ++ drop (Z.to_nat (endOld r + 1)) oldLines.
Proof.
  intros H.
  rewrite (findChangedRange_prefix _ _ _ H), (findChangedRange_suffix _ _ _ H).
  apply findChangedRange_Some in H as (H0 & H1 & H2 & H3 & H4 & H5).
  unfold sliceArr. rewrite !relIndex_nonneg by lia.
  replace (Z.min (start r) (len newLines)) with (start r) by lia.
  replace (Z.min (endNew r + 1) (len newLines)) with (endNew r + 1)%Z by lia.
  rewrite app_assoc, take_take_drop.
  replace (Z.to_nat (start r) + Z.to_nat (endNew r + 1 - start r))
    with (Z.to_nat (endNew r + 1)) by lia.
  by rewrite take_drop.
Qed.

Lemma findChangedRange_patch_witness :
  [str "a"; str "x"; str "b"; str "c"]
  = take 1 [str "a"; str "b"; str "c"]
    ++ sliceArr [str "a"; str "x"; str "b"; str "c"] 1 2
    ++ drop 1 [str "a"; str "b"; str "c"].
Proof.
  apply (findChangedRange_patch [str "a"; str "b"; str "c"]
           [str "a"; str "x"; str "b"; str "c"] (mkRange 1 0 1)).
  reflexivity.
Defined.

Lemma findChangedRange_not_all oldLines newLines r :
  findChangedRange oldLines newLines = Some r ->
  ~ (start r = len oldLines /\ start r = len newLines).
Proof.
  unfold findChangedRange.
  destruct (_ && _) eqn:E; [done|].
  destruct (suffixLoop _ _ _ _ _ _) as [eo en].
  intros [= <-]; simpl. intros [Ha Hb].
  apply andb_false_iff in E as [E|E]; apply Z.eqb_neq in E; done.
Qed.

(** X16. The reported range cannot be shrunk: it is not empty on both
    sides, and when it holds lines on both sides, the first lines of the two
    ranges differ and so do the last lines. *)
Theorem findChangedRange_tight oldLines newLines r :
  findChangedRange oldLines newLines = Some r ->
  ((start r <= endOld r)%Z \/ (start r <= endNew r)%Z)
  /\ ((start r <= endOld r)%Z -> (start r <= endNew r)%Z ->
      elem oldLines (start r) <> elem newLines (start r)
      /\ elem oldLines (endOld r) <> elem newLines (endNew r)).
Proof.
  intros H.
  pose proof (findChangedRange_maximal _ _ _ H) as [Hmax1 Hmax2].
  pose proof (findChangedRange_not_all _ _ _ H) as Hnot.
  apply findChangedRange_Some in H as (H0 & H1 & H2 & H3 & H4 & H5).
  split.
  - destruct (Z.leb_spec (start r) (endOld r)) as [|Ho]; [by left|].
    destruct (Z.leb_spec (start r) (endNew r)) as [|Hn]; [by right|].
    exfalso.
    destruct (Z.ltb_spec (start r) (Z.min (len oldLines) (len newLines)))
      as [Hlt|Hge].
    + apply (Hmax1 Hlt).
      pose proof (H5 1%Z ltac:(lia)) as Heq.
      replace (endOld r + 1)%Z with (start r) in Heq by lia.
      replace (endNew r + 1)%Z with (start r) in Heq by lia. done.
    + apply Hnot. lia.
  - intros Ho Hn. split.
    + apply Hmax1. lia.
    + destruct Hmax2 as [?|[?|?]]; [lia|lia|done].
Qed.

Lemma findChangedRange_tight_witness :
  elem [str "a"; str "b"; str "c"] 1 <> elem [str "a"; str "x"; str "c"] 1.
Proof.
  apply (findChangedRange_tight [str "a"; str "b"; str "c"]
           [str "a"; str "x"; str "c"] (mkRange 1 1 1) eq_refl); simpl; lia.
Defined.

(** ** More on the token cache *)

(** X17. Running the handler again on the same input changes nothing: the
    second run finds no changed range. *)
Theorem syncFromInput_idempotent st input :
  syncFromInput (syncFromInput st input) input = syncFromInput st input.
Proof.
  unfold syncFromInput at 1. unfold lines. rewrite syncFromInput_text.
  rewrite findChangedRange_same. reflexivity.
Qed.

(** The cache after the splice, when it was fresh before: fresh entries up
    to [endNew], then the old entries from index [endNew + 1] on. *)
Lemma retokenizeRange_fresh oldLines newLines r :
  findChangedRange oldLines newLines = Some r ->
  retokenizeRange (map lineHtml oldLines) newLines (start r) (endNew r)
  = map lineHtml (take (Z.to_nat (endNew r + 1)) newLines)
    ++ drop (Z.to_nat (endNew r + 1)) (map lineHtml oldLines).
Proof.
  intros H. pose proof (findChangedRange_prefix _ _ _ H) as Hpre.
  apply findChangedRange_Some in H as (H0 & H1 & H2 & H3 & H4 & H5).
  rewrite retokenizeRange_eq by (unfold len in *; rewrite ?length_map; lia).
  change (map lineHtml) with (fmap (M := list) lineHtml).
  rewrite <- fmap_take, Hpre, app_assoc, <- fmap_app, take_take_drop.
  do 3 f_equal. lia.
Qed.

(** X18. After an update of a fresh cache, every entry up to the end of the
    changed range is fresh. *)
Theorem syncFromInput_fresh_upto st input r i :
  state_tokens st = map lineHtml (lines st) ->
  findChangedRange (lines st) (split NEWLINE (value input)) = Some r ->
  (0 <= i <= endNew r)%Z ->
  elem (state_tokens (syncFromInput st input)) i
  = elem (map lineHtml (split NEWLINE (value input))) i.
Proof.
  intros Hc H Hi. unfold syncFromInput; simpl. rewrite H, Hc.
  rewrite (retokenizeRange_fresh _ _ _ H).
  apply findChangedRange_Some in H as (H0 & H1 & H2 & H3 & H4 & H5).
  set (newLines := split NEWLINE (value input)) in *.
  replace i with (Z.of_nat (Z.to_nat i)) by lia. rewrite !elem_lookup.
  assert (Hlen : length (map lineHtml (take (Z.to_nat (endNew r + 1)) newLines))
                 = Z.to_nat (endNew r + 1)).
  { rewrite length_map, length_take. unfold len in *. lia. }
  rewrite fixLength_lookup.
  - rewrite lookup_app_l by lia.
    change (map lineHtml) with (fmap (M := list) lineHtml).
    by rewrite !list_lookup_fmap, lookup_take_lt by lia.
  - rewrite length_app. lia.
  - unfold len in *. lia.
Qed.

Lemma syncFromInput_fresh_upto_witness :
  elem (state_tokens (syncFromInput (initState abc) (mkInput axbc 3 3))) 1
  = elem (map lineHtml (split NEWLINE axbc)) 1.
Proof.
  apply (syncFromInput_fresh_upto (initState abc) (mkInput axbc 3 3) (mkRange 1 0 1)).
  - reflexivity.
  - vm_compute. reflexivity.
  - simpl. lia.
Defined.

(** X19. The whole cache is fresh after an update of a fresh cache when the
    edit keeps the number of lines or reaches the last line (no unchanged
    line after the changed range). *)
Theorem syncFromInput_fresh st input :
  state_tokens st = map lineHtml (lines st) ->
  match findChangedRange (lines st) (split NEWLINE (value input)) with
  | Some r =>
      len (lines st) = len (split NEWLINE (value input))
      \/ endOld r = (len (lines st) - 1)%Z
  | None => True
  end ->
  state_tokens (syncFromInput st input)
  = map lineHtml (split NEWLINE (value input)).
Proof.
  intros Hc Hcase.
  destruct (findChangedRange (lines st) (split NEWLINE (value input)))
    as [r|] eqn:E.
  2: { unfold syncFromInput; simpl. rewrite E.
       apply findChangedRange_None in E. by rewrite Hc, E. }
  destruct Hcase as [Hsame|Hend].
  { apply syncFromInput_same_count; [done|]. unfold len in Hsame. lia. }
  unfold syncFromInput; simpl. rewrite E, Hc.
  rewrite (retokenizeRange_fresh _ _ _ E).
  apply findChangedRange_Some in E as (H0 & H1 & H2 & H3 & H4 & H5).
  set (newLines := split NEWLINE (value input)) in *.
  assert (Hn : Z.to_nat (endNew r + 1) = length newLines)
    by (unfold len in *; lia).
  rewrite Hn, take_ge by lia.
  unfold fixLength. rewrite length_app, !length_map, length_drop, length_map.
  destruct (Nat.ltb_spec (length newLines)
              (length newLines + (length (lines st) - length newLines))).
  - rewrite take_app_length'; [done|by rewrite length_map].
  - destruct (Nat.ltb_spec
                (length newLines + (length (lines st) - length newLines))
                (length newLines)); [lia|].
    rewrite drop_ge by (rewrite length_map; lia). by rewrite app_nil_r.
Qed.

Lemma syncFromInput_fresh_witness :
  state_tokens (syncFromInput (initState abc) (mkInput (abc ++ [NEWLINE] ++ str "d") 7 7))
  = map lineHtml (split NEWLINE (abc ++ [NEWLINE] ++ str "d")).
Proof.
  apply (syncFromInput_fresh (initState abc)
           (mkInput (abc ++ [NEWLINE] ++ str "d") 7 7)).
  - reflexivity.
  - vm_compute. right. reflexivity.
Defined.

(** X20. An update does not move the entries after the changed range: the
    entry at an index beyond [endNew] is the entry that was at that index. *)
Theorem syncFromInput_suffix_frame st input r i :
  length (state_tokens st) = length (lines st) ->
  findChangedRange (lines st) (split NEWLINE (value input)) = Some r ->
  (endNew r < i < len (split NEWLINE (value input)))%Z ->
  (i < len (state_tokens st))%Z ->
  elem (state_tokens (syncFromInput st input)) i = elem (state_tokens st) i.
Proof.
  intros Hinv H Hi Hit. unfold syncFromInput; simpl. rewrite H.
  apply findChangedRange_Some in H as (H0 & H1 & H2 & H3 & H4 & H5).
  set (newLines := split NEWLINE (value input)) in *.
  rewrite retokenizeRange_eq by (unfold len in *; lia).
  replace i with (Z.of_nat (Z.to_nat i)) by lia. rewrite !elem_lookup.
  assert (Hl1 : length (take (Z.to_nat (start r)) (state_tokens st))
                = Z.to_nat (start r))
    by (rewrite length_take; unfold len in *; lia).
  assert (Hl2 : length (map lineHtml (take (Z.to_nat (endNew r + 1 - start r))
                                        (drop (Z.to_nat (start r)) newLines)))
                = Z.to_nat (endNew r + 1 - start r)).
  { rewrite length_map, length_take, length_drop. unfold len in *. lia. }
  rewrite fixLength_lookup.
  - rewrite lookup_app_r by lia. rewrite lookup_app_r by lia.
    rewrite lookup_drop. f_equal. lia.
  - rewrite !length_app, Hl1, Hl2, length_drop. unfold len in *. lia.
  - unfold len in *. lia.
Qed.

Lemma syncFromInput_suffix_frame_witness :
  elem (state_tokens (syncFromInput (initState abc) (mkInput axbc 3 3))) 2
  = elem (state_tokens (initState abc)) 2.
Proof.
  apply (syncFromInput_suffix_frame (initState abc) (mkInput axbc 3 3)
           (mkRange 1 0 1)).
  - reflexivity.
  - vm_compute. reflexivity.
  - vm_compute. split; reflexivity.
  - vm_compute. reflexivity.
Defined.

(** ** More on the visible range *)

Lemma visibleRange_bounds LINE_HEIGHT st :
  let r := computeVisibleRange LINE_HEIGHT st in
  (0 <= first r)%Z /\ (last r <= totalLines st - 1)%Z
  /\ (last r - first r + 1
      <= Qceiling (state_viewportHeight st / inject_Z LINE_HEIGHT)
         + 2 * RENDER_BUFFER)%Z.
Proof. unfold computeVisibleRange; cbn [first last]. lia. Qed.

(** X21. The returned range stays inside the document and holds at most
    [visibleCount] lines: every index from [first] to [last] is a line
    index, whatever the scroll offset and the line height are. *)
Theorem computeVisibleRange_in_document LINE_HEIGHT st i :
  let r := computeVisibleRange LINE_HEIGHT st in
  ((first r <= i <= last r)%Z -> (0 <= i < totalLines st)%Z)
  /\ (last r - first r + 1
      <= Qceiling (state_viewportHeight st / inject_Z LINE_HEIGHT)
         + 2 * RENDER_BUFFER)%Z.
Proof.
  intros r. pose proof (visibleRange_bounds LINE_HEIGHT st) as (H0 & H1 & H2).
  fold r in H0, H1, H2. split; [lia|done].
Qed.

Lemma computeVisibleRange_in_document_witness :
  (0 <= 5 < totalLines scrolled)%Z.
Proof.
  apply (computeVisibleRange_in_document 28 scrolled 5). vm_compute.
  split; discriminate.
Defined.

Section MoreViewport.

Variable LINE_HEIGHT : Z.
Hypothesis LINE_HEIGHT_pos : (0 < LINE_HEIGHT)%Z.

Lemma floor_div_le (x : Q) (n : Z) :
  (n <= Qfloor (x / inject_Z LINE_HEIGHT))%Z
  <-> (inject_Z (n * LINE_HEIGHT) <= x)%Q.
Proof using LINE_HEIGHT_pos.
  pose proof (floor_div_lt LINE_HEIGHT LINE_HEIGHT_pos x n) as H.
  split.
  - intros Hle. apply Qnot_lt_le. intros Hlt. apply H in Hlt. lia.
  - intros Hle. apply Z.le_ngt. intros Hlt. apply H in Hlt.
    by apply Qlt_not_le in Hlt.
Qed.


(** X23. Scrolling down never moves the range up: both ends of the range
    grow with the scroll offset. *)
Theorem computeVisibleRange_monotone st top1 left1 top2 left2 :
  (top1 <= top2)%Q ->
  let r1 := computeVisibleRange LINE_HEIGHT (onScroll st top1 left1) in
  let r2 := computeVisibleRange LINE_HEIGHT (onScroll st top2 left2) in
  (first r1 <= first r2)%Z /\ (last r1 <= last r2)%Z.
Proof using LINE_HEIGHT_pos.
  intros Hle r1 r2.
  assert (Hq : (Qfloor (top1 / inject_Z LINE_HEIGHT)
                <= Qfloor (top2 / inject_Z LINE_HEIGHT))%Z).
  { apply floor_div_le. eapply Qle_trans; [|exact Hle].
    apply floor_div_le. lia. }
  unfold r1, r2, computeVisibleRange, onScroll, totalLines, lines;
    cbn [first last state_scrollTop state_viewportHeight state_text]. lia.
Qed.

End MoreViewport.


Lemma computeVisibleRange_monotone_witness :
  (first (computeVisibleRange 28 (onScroll scrolled 280 0))
   <= first (computeVisibleRange 28 (onScroll scrolled 560 0)))%Z
  /\ (last (computeVisibleRange 28 (onScroll scrolled 280 0))
      <= last (computeVisibleRange 28 (onScroll scrolled 560 0)))%Z.
Proof.
  apply (computeVisibleRange_monotone 28 ltac:(lia) scrolled 280 0 560 0).
  vm_compute. discriminate.
Defined.

Lemma renderRows_lookup n i tokens k :
  renderRows n i tokens !! k
  = if k <? n
    then Some (mkRow (i + Z.of_nat k + 1) (orEmpty (elem tokens (i + Z.of_nat k))))
    else None.
Proof.
  revert i k. induction n as [|n IH]; intros i k; simpl; [done|].
  destruct k as [|k]; simpl.
  - by rewrite Z.add_0_r.
  - rewrite IH. change (S k <? S n) with (k <? n).
    destruct (k <? n); [|done].
    by replace (i + 1 + Z.of_nat k)%Z with (i + Z.pos (Pos.of_succ_nat k))%Z by lia.
Qed.

Lemma renderRows_row n i tokens k row :
  renderRows n i tokens !! k = Some row ->
  k < n /\ gutterLabel row = (i + Z.of_nat k + 1)%Z
  /\ contentHtml row = orEmpty (elem tokens (i + Z.of_nat k)).
Proof.
  rewrite renderRows_lookup. destruct (Nat.ltb_spec k n); [|done].
  by intros [= <-].
Qed.

Lemma renderRows_length n i tokens : length (renderRows n i tokens) = n.
Proof. revert i. induction n as [|n IH]; intros i; simpl; [done|]. by rewrite IH. Qed.

(** X24. When the cache has one entry per line, every row that
    [renderSlice] draws belongs to a line of the document, is labelled with
    its line number, and shows the cache entry of that line (the fallback to
    the empty string is never taken for a missing entry); there are at most
    [last - first + 1] rows. *)
Theorem renderSlice_rows LINE_HEIGHT st :
  length (state_tokens st) = length (lines st) ->
  let r := computeVisibleRange LINE_HEIGHT st in
  length (rows (renderSlice LINE_HEIGHT st)) = Z.to_nat (last r - first r + 1)
  /\ forall k row,
       rows (renderSlice LINE_HEIGHT st) !! k = Some row ->
       (0 <= first r + Z.of_nat k < totalLines st)%Z
       /\ gutterLabel row = (first r + Z.of_nat k + 1)%Z
       /\ elem (state_tokens st) (first r + Z.of_nat k) = Some (contentHtml row).
Proof.
  intros Hinv r. unfold renderSlice. fold r. cbn [rows].
  split; [apply renderRows_length|].
  intros k row Hrow. apply renderRows_row in Hrow as (Hk & Hg & Hcnt).
  pose proof (visibleRange_bounds LINE_HEIGHT st) as (H0 & H1 & _).
  fold r in H0, H1.
  assert (Hi : (0 <= first r + Z.of_nat k < totalLines st)%Z) by lia.
  split; [done|]. split; [done|].
  destruct (elem_is_Some (state_tokens st) (first r + Z.of_nat k)) as [h Hh].
  { unfold totalLines, len in *. lia. }
  by rewrite Hcnt, Hh.
Qed.

Lemma renderSlice_rows_witness :
  length (rows (renderSlice 28 (initState abc))) = 3
  /\ forall k row,
       rows (renderSlice 28 (initState abc)) !! k = Some row ->
       (0 <= 0 + Z.of_nat k < 3)%Z
       /\ gutterLabel row = (0 + Z.of_nat k + 1)%Z
       /\ elem (state_tokens (initState abc)) (0 + Z.of_nat k)
          = Some (contentHtml row).
Proof.
  apply (renderSlice_rows 28 (initState abc)). reflexivity.
Defined.

(** ** The lines of the document *)

Lemma split_cons sep s : exists l ls, split sep s = l :: ls.
Proof.
  pose proof (split_length sep s) as H.
  destruct (split sep s) as [|l ls]; [simpl in H; lia|eauto].
Qed.

Lemma split_join sep s : joinWith sep (split sep s) = s.
Proof.
  induction s as [|c s IH]; simpl; [done|].
  destruct (split_cons sep s) as (l & ls & Hs). rewrite Hs in *.
  destruct (N.eqb_spec c sep) as [->|Hne].
  - change (sep :: joinWith sep (l :: ls) = sep :: s). by rewrite IH.
  - change (c :: joinWith sep (l :: ls) = c :: s). by rewrite IH.
Qed.

Lemma split_no_sep sep s l : l ∈ split sep s -> sep ∉ l.
Proof.
  revert l. induction s as [|c s IH]; simpl; intros l Hl.
  { apply list_elem_of_singleton in Hl as ->. apply not_elem_of_nil. }
  destruct (split_cons sep s) as (l0 & ls & Hs). rewrite Hs in *.
  destruct (N.eqb_spec c sep) as [->|Hne].
  - apply elem_of_cons in Hl as [->|Hl]; [apply not_elem_of_nil|by apply IH].
  - apply elem_of_cons in Hl as [->|Hl].
    + intros Hin. apply elem_of_cons in Hin as [->|Hin]; [done|].
      by apply (IH l0); [apply list_elem_of_here|].
    + apply IH. by apply list_elem_of_further.
Qed.

Lemma split_count sep s :
  length (split sep s) = S (count_occ N.eq_dec s sep).
Proof.
  induction s as [|c s IH]; [done|].
  destruct (split_cons sep s) as (l0 & ls & Hs).
  cbn [split]. destruct (N.eqb_spec c sep) as [->|Hne].
  - rewrite count_occ_cons_eq by done. cbn [length]. by rewrite IH.
  - rewrite count_occ_cons_neq by done. rewrite <- IH, Hs. done.
Qed.

(** X25. No line of the document holds a newline. *)
Theorem lines_no_newline st l : l ∈ lines st -> NEWLINE ∉ l.
Proof. apply split_no_sep. Qed.

Lemma lines_no_newline_witness : NEWLINE ∉ str "b".
Proof.
  apply (lines_no_newline (initState abc)). vm_compute.
  apply list_elem_of_further, list_elem_of_here.
Defined.

(** X26. The lines, put together with a newline between them, are the
    text; the document has one line more than its text has newlines. *)
Theorem lines_text st :
  joinWith NEWLINE (lines st) = state_text st
  /\ totalLines st = (1 + Z.of_nat (count_occ N.eq_dec (state_text st) NEWLINE))%Z.
Proof.
  split; [apply split_join|].
  unfold totalLines, len, lines. rewrite split_count. lia.
Qed.

(** ** More on keys *)

Lemma tokenizeLine_key_followed line i t :
  tokenizeLine line !! i = Some t -> type t = TKey ->
  followedByColon (tokenizeLine line) i.
Proof.
  destruct (tokenizeLine_raw line) as (raw & _ & _ & He & _ & _ & Hk).
  rewrite He. intros Ht Hty. apply followedByColon_markKeys.
  rewrite markKeys_lookup in Ht.
  destruct (raw !! i) as [t0|] eqn:E; [|done]. simpl in Ht.
  destruct (keyCheck raw i) eqn:Ek; injection Ht as <-.
  - by apply keyCheck_spec in Ek as [_ ?].
  - rewrite Forall_forall in Hk. exfalso. apply (Hk t0); [|done].
    apply list_elem_of_lookup. eauto.
Qed.

(** X27. A key is never the last token: right after it comes the colon, or
    one whitespace-only plain token and then the colon. *)
Theorem tokenizeLine_key_next line i t :
  tokenizeLine line !! i = Some t -> type t = TKey ->
  (exists tc, tokenizeLine line !! S i = Some tc /\ colonToken tc)
  \/ (exists tb tc,
        tokenizeLine line !! S i = Some tb /\ blankPlain tb
        /\ tokenizeLine line !! S (S i) = Some tc /\ colonToken tc).
Proof.
  intros Ht Hty.
  destruct (tokenizeLine_key_followed line i t Ht Hty)
    as (j & tj & Hij & Hj & Hc & Hbetween).
  destruct (decide (j = S i)) as [->|Hne1]; [left; eauto|].
  destruct (Hbetween (S i)) as (tb & Htb & Hb); [lia|].
  destruct (decide (j = S (S i))) as [->|Hne2]; [right; eauto 10|].
  exfalso.
  destruct (Hbetween (S (S i))) as (tb2 & Htb2 & Hb2); [lia|].
  pose proof (tokenizeLine_shaped line) as [_ Hadj].
  apply (noAdjacentPlain_lookup _ _ _ _ Hadj Htb Htb2); [apply Hb|apply Hb2].
Qed.

Lemma tokenizeLine_key_next_witness :
  (exists tc, tokenizeLine (quoted "a" ++ str " : 1") !! 1 = Some tc
              /\ colonToken tc)
  \/ (exists tb tc,
        tokenizeLine (quoted "a" ++ str " : 1") !! 1 = Some tb /\ blankPlain tb
        /\ tokenizeLine (quoted "a" ++ str " : 1") !! 2 = Some tc
        /\ colonToken tc).
Proof.
  apply (tokenizeLine_key_next (quoted "a" ++ str " : 1") 0
           (mkToken TKey (quoted "a"))).
  - vm_compute. reflexivity.
  - reflexivity.
Defined.
